(** * Scrutinizer: the examination engine

    A shallow embedding of [lib/index.js] (the orchestrator
    [examineGitRepository], the plugin selector [filterPlugins], the entry
    points [local] and [remote]) and of the two extractor plugins that ship
    with it, [plugins/architecture] and [plugins/changelog].

    The engine leans on three libraries: lodash ([_.merge], [_.pick],
    [_.values], [_.isEmpty]), Bluebird ([reduce], [props]) and tmp
    ([dir], [setGracefulCleanup]).  Their behaviour is transcribed from
    the releases that [package.json] asks for: the ranges [^4.17.4] and
    [^3.5.1] resolve to the last releases of lodash 4.17 and of
    Bluebird 3, and tmp is pinned to 0.0.33.  It is transcribed on the
    fragment of JavaScript values the engine handles. *)

From Stdlib Require Import List String Ascii ZArith Lia Bool Arith.
#[local] Set Warnings "-register-all".
#[local] Set Warnings "-automation".
Import ListNotations.
Local Open Scope string_scope.
Local Open Scope list_scope.

(** ** JSON-compatible values

    Partial results and the accumulator are plain JavaScript objects
    holding JSON-compatible values, plus [undefined], which a plugin can
    produce (for instance [yaml.safeLoad] of a document without content).
    Numbers are taken to be integers.  An object is the list of its own
    enumerable properties in the order JavaScript enumerates them: the
    names that are array indices first, in ascending order, then the
    other names in the order of their creation. *)

Inductive value : Type :=
| VUndefined
| VNull
| VBool (b : bool)
| VNum (n : Z)
| VStr (s : string)
| VArr (elems : list value)
| VObj (props : list (string * value)).

Definition fields := list (string * value).

(** [object[key]] on own properties. *)
Fixpoint lookup {A : Type} (key : string) (object : list (string * A))
  : option A :=
  match object with
  | [] => None
  | (k, v) :: rest => if String.eqb key k then Some v else lookup key rest
  end.

(** The array index a property name stands for, if any: the canonical
    decimal form of an integer below [2^32 - 1]. *)
Definition digit (c : ascii) : option N :=
  let n := N_of_ascii c in
  if ((48 <=? n) && (n <=? 57))%N then Some (n - 48)%N else None.

Fixpoint digits (s : string) (sum : N) : option N :=
  match s with
  | EmptyString => Some sum
  | String c rest =>
      match digit c with
      | Some d => digits rest (sum * 10 + d)%N
      | None => None
      end
  end.

Definition array_index (key : string) : option N :=
  match key with
  | EmptyString => None
  | String c rest =>
      match digit c, rest with
      | None, _ => None
      | Some 0%N, EmptyString => Some 0%N
      | Some 0%N, String _ _ => None
      | Some _, _ =>
          match digits key 0 with
          | Some n => if (n <? 4294967295)%N then Some n else None
          | None => None
          end
      end
  end.

Definition is_index (key : string) : bool :=
  match array_index key with
  | Some _ => true
  | None => false
  end.

(** A new property [key] is enumerated before an existing property
    [other]: [key] is an array index and [other] is a larger one, or none. *)
Definition precedes (key other : string) : bool :=
  match array_index key, array_index other with
  | Some i, Some j => (i <? j)%N
  | Some _, None => true
  | None, _ => false
  end.

(** [object[key] = value]: an existing property keeps its position; a new
    one takes the place JavaScript enumerates it at, among the array
    indices when it is one and after every other property when not. *)
Fixpoint assign {A : Type} (key : string) (v : A) (object : list (string * A))
  : list (string * A) :=
  match object with
  | [] => [(key, v)]
  | (k, w) :: rest =>
      if String.eqb key k then (k, v) :: rest
      else if precedes key k then (key, v) :: (k, w) :: rest
      else (k, w) :: assign key v rest
  end.

(** [Object.keys (object)] and [_.values (object)]. *)
Definition keys {A : Type} (object : list (string * A)) : list string :=
  map fst object.

Definition values {A : Type} (object : list (string * A)) : list A :=
  map snd object.

(** Property names every plain object inherits from [Object.prototype]
    (V8).  lodash resolves [key in object] and [object[key]] through the
    prototype chain, so these names do not behave like ordinary fields. *)
Definition OBJECT_PROTOTYPE : list string :=
  [ "constructor"; "__defineGetter__"; "__defineSetter__"; "hasOwnProperty";
    "__lookupGetter__"; "__lookupSetter__"; "isPrototypeOf";
    "propertyIsEnumerable"; "toString"; "valueOf"; "__proto__";
    "toLocaleString" ].

Definition inherited (key : string) : bool :=
  existsb (String.eqb key) OBJECT_PROTOTYPE.

(** The property names [_.merge] is not modelled for: the members of
    [Object.prototype], which lodash reads through the prototype chain
    (and, from its guard against prototype pollution on, skips in part),
    and the array indices, which turn a plain object into an array-like
    one. *)
Definition exotic (key : string) : bool :=
  inherited key || is_index key.

(** Scalars of a result: everything that is neither a container nor
    [undefined]. *)
Definition is_scalar (v : value) : bool :=
  match v with
  | VNull | VBool _ | VNum _ | VStr _ => true
  | _ => false
  end.

(** lodash's [isArrayLikeObject] on a value that is not an array: an
    object with a numeric [length]. *)
Definition array_like (v : option value) : bool :=
  match v with
  | Some (VObj props) =>
      match lookup "length" props with
      | Some (VNum _) => true
      | _ => false
      end
  | _ => false
  end.

(** ** lodash [_.merge]

    [baseMerge (object, source)] walks the properties of [source]; for
    each one [assignMergeValue]/[baseMergeDeep] compute the new value of
    [object[key]] from the old one ([objValue], absent when the key is
    not in [object]) and [srcValue]:
    - [undefined] is skipped when the destination has the key;
    - any other non-object value is assigned;
    - an array is merged index by index into the destination array, or
      into a fresh [[]] when the destination is not an array;
    - a plain object is merged key by key into the destination object,
      or into a fresh [{}] when the destination is not an object.
    Three situations leave the fragment modelled here and yield [None]:
    a plain object merged onto an array (the array acquires named
    properties), an array merged onto an object that is array-like (its
    indexed properties are copied), and an [exotic] key in a source
    object. *)

Section MergeLoops.
Variable mergeValue : option value -> value -> option value.

(** [baseFor] over the indices of a source array. *)
Fixpoint mergeElems (source object : list value) : option (list value) :=
  match source with
  | [] => Some object
  | srcValue :: source' =>
      match mergeValue (hd_error object) srcValue,
            mergeElems source' (tl object) with
      | Some v, Some vs => Some (v :: vs)
      | _, _ => None
      end
  end.

(** [baseFor] over the keys of a source object. *)
Fixpoint mergeProps (source object : fields) : option fields :=
  match source with
  | [] => Some object
  | (key, srcValue) :: source' =>
      if exotic key then None
      else match mergeValue (lookup key object) srcValue with
           | Some v => mergeProps source' (assign key v object)
           | None => None
           end
  end.
End MergeLoops.

Fixpoint mergeValue (objValue : option value) (srcValue : value)
  : option value :=
  match srcValue with
  | VUndefined =>
      Some (match objValue with Some v => v | None => VUndefined end)
  | VNull | VBool _ | VNum _ | VStr _ => Some srcValue
  | VArr source =>
      if array_like objValue then None
      else
        let object :=
          match objValue with Some (VArr xs) => xs | _ => [] end in
        option_map VArr (mergeElems mergeValue source object)
  | VObj source =>
      match objValue with
      | Some (VArr _) => None
      | Some (VObj object) =>
          option_map VObj (mergeProps mergeValue source object)
      | _ => option_map VObj (mergeProps mergeValue source [])
      end
  end.

(** [_.merge (object, source)] for a plain [object] and a plain [source]. *)
Definition baseMerge (object source : fields) : option fields :=
  mergeProps mergeValue source object.

(** ** The plugin selector

    [BUILTIN_PLUGINS] maps each plugin name to the module it requires
    from [./plugins]; the order of the literal is the engine's canonical
    order. *)

Definition BUILTIN_PLUGINS : list (string * string) :=
  [ ("license", "license");
    ("blog", "blog");
    ("changelog", "changelog");
    ("contributing", "contributing");
    ("contributors", "contributors");
    ("docs", "docs");
    ("security", "security");
    ("faq", "faq");
    ("code-of-conduct", "code-of-conduct");
    ("architecture", "architecture");
    ("maintainers", "maintainers");
    ("readme", "readme");
    ("readme-sections", "readme-sections");
    ("github-metadata", "github-metadata");
    ("dependencies", "dependencies");
    ("last-commit-date", "last-commit-date");
    ("latest-release", "latest-release");
    ("latest-prerelease", "latest-prerelease");
    ("open-issues", "open-issues");
    ("version", "version");
    ("deployButtons", "deployButtons");
    ("screenshot", "screenshot");
    ("logo", "logo");
    ("logoBrandMark", "logo-brandmark") ].

(** What a property of the registry object can evaluate to: one of the
    required plugin modules, or a member of [Object.prototype] reached
    through the prototype chain. *)
Inductive registry_value : Type :=
| Module (path : string)
| Prototype (name : string).

Definition registry := list (string * registry_value).

Definition builtin_plugins : registry :=
  map (fun entry => (fst entry, Module (snd entry))) BUILTIN_PLUGINS.

(** [_.isEmpty] on an optional array. *)
Definition isEmpty {A : Type} (x : option (list A)) : bool :=
  match x with
  | None | Some [] => true
  | Some (_ :: _) => false
  end.

(** [hasIn] and [baseGet]: [key in object] and [object[key]], prototype
    chain included. *)
Definition get (object : registry) (key : string) : option registry_value :=
  match lookup key object with
  | Some v => Some v
  | None => if inherited key then Some (Prototype key) else None
  end.

(** The keys [baseSet] leaves alone, its guard against prototype
    pollution. *)
Definition refused (key : string) : bool :=
  existsb (String.eqb key) ["__proto__"; "constructor"; "prototype"].

(** [baseSet (result, [key], value)]. *)
Definition baseSet (result : registry) (key : string) (v : registry_value)
  : registry :=
  if refused key then result else assign key v result.

(** lodash takes a whitelist entry as a property name when it contains
    neither [.] nor [[]; from 4.17.5 on any other entry is parsed as a
    path into the object, which is not modelled. *)
Fixpoint is_key (name : string) : bool :=
  match name with
  | EmptyString => true
  | String c rest =>
      negb (Ascii.eqb c "."%char) && negb (Ascii.eqb c "["%char) && is_key rest
  end.

(** [_.pick (object, paths)]: the result is built in the order of
    [paths], each entry set when [key in object]. *)
Fixpoint basePick (object : registry) (paths : list string) (result : registry)
  : option registry :=
  match paths with
  | [] => Some result
  | key :: paths' =>
      if is_key key then
        basePick object paths'
          (match get object key with
           | Some v => baseSet result key v
           | None => result
           end)
      else None
  end.

Definition pick (object : registry) (paths : list string) : option registry :=
  basePick object paths [].

Definition filterPlugins (pluginWhitelist : option (list string))
  : option (list registry_value) :=
  let plugins := builtin_plugins in
  if negb (isEmpty pluginWhitelist) then
    option_map values (pick plugins (match pluginWhitelist with
                                     | Some paths => paths
                                     | None => []
                                     end))
  else Some (values plugins).

(** ** Backends, plugins and the effects of a run *)

(** A JavaScript error value. *)
Record error : Type := mkError { error_name : string; error_message : string }.

Definition TypeError (message : string) : error :=
  mkError "TypeError" message.

(** What [backend.readFile] yields: the text, or nothing for a file that
    does not exist. *)
Definition contents := option string.

(** A directory on disk: its files and their text. *)
Definition tree := list (string * string).

(** A backend class of [BACKENDS] ([./backends/fs], [./backends/github];
    neither module is part of the engine).  Its methods are given by their
    outcome for an instance, identified by what it was constructed with and
    by the identity of the object; [class_checkout] is what [init] does to
    the directory the instance is bound to. *)
Record BackendClass : Type := mkClass {
  class_init : string -> string -> nat -> option error;
  class_readFile : string -> string -> nat -> string -> error + contents;
  class_checkout : string -> tree -> tree
}.

(** An instance: [new options.backend (repository, reference)]. *)
Record Backend : Type := mkBackend {
  class : BackendClass;
  repository : string;
  reference : string;
  instance : nat
}.

Definition init (b : Backend) : option error :=
  class_init (class b) (repository b) (reference b) (instance b).

Definition readFile (b : Backend) (path : string) : error + contents :=
  class_readFile (class b) (repository b) (reference b) (instance b) path.

(** A plugin: the promise [plugin (backend)] settles with a partial
    result, a plain object, or rejects. *)
Definition Plugin := Backend -> error + fields.

(** A progress sink returns, or throws. *)
Definition Sink := Z -> option error.

(** What a run does, as an observer of the process sees it: the sink is
    called with a percentage; a backend is constructed; [init ()] is
    called on a backend; the plugin at [index] is called on a backend and
    its promise settles with [result]. *)
Inductive event : Type :=
| Progress (percentage : Z)
| Constructed (b : Backend)
| InitCalled (b : Backend)
| Extracted (index : nat) (b : Backend) (result : error + fields).

(** How a promise settles.  [Unmodelled] stands for a run that leaves the
    modelled fragment of lodash (see [mergeValue] and [is_key]). *)
Inductive outcome (A : Type) : Type :=
| Fulfilled (a : A)
| Rejected (e : error)
| Unmodelled.
Arguments Fulfilled {A} a.
Arguments Rejected {A} e.
Arguments Unmodelled {A}.

(** Computations of the engine: they draw fresh object identities from a
    counter and emit the events they perform, in order. *)
Definition M (A : Type) : Type := nat -> outcome A * nat * list event.

Definition ret {A : Type} (a : A) : M A := fun n => (Fulfilled a, n, []).

Definition bind {A B : Type} (m : M A) (f : A -> M B) : M B :=
  fun n =>
    match m n with
    | (Fulfilled a, n', t) =>
        match f a n' with
        | (o, n'', t') => (o, n'', t ++ t')
        end
    | (Rejected e, n', t) => (Rejected e, n', t)
    | (Unmodelled, n', t) => (Unmodelled, n', t)
    end.

Declare Scope engine_scope.
Delimit Scope engine_scope with engine.
Notation "x <- m ;; k" := (bind m (fun x => k))
  (at level 61, m at next level, right associativity) : engine_scope.
Notation "m ;; k" := (bind m (fun _ => k))
  (at level 61, right associativity) : engine_scope.
Local Open Scope engine_scope.

Definition emit (ev : event) : M unit := fun n => (Fulfilled tt, n, [ev]).

Definition reject {A : Type} (e : error) : M A := fun n => (Rejected e, n, []).

Definition settle {A : Type} (r : error + A) : M A :=
  match r with
  | inl e => reject e
  | inr a => ret a
  end.

Definition throwing (r : option error) : M unit :=
  match r with
  | Some e => reject e
  | None => ret tt
  end.

(** [new options.backend (repository, reference)]: a fresh object.  The
    constructors of the backend classes are taken to record their
    arguments and not to throw. *)
Definition construct (c : BackendClass) (repo ref : string) : M Backend :=
  fun n =>
    let b := mkBackend c repo ref n in
    (Fulfilled b, S n, [Constructed b]).

(** [_.merge (accumulator, result)]. *)
Definition merge (accumulator result : fields) : M fields :=
  fun n =>
    match baseMerge accumulator result with
    | Some merged => (Fulfilled merged, n, [])
    | None => (Unmodelled, n, [])
    end.

(** [Bluebird.reduce (input, reducer, initial)]: the reducer is awaited
    for each element in turn, with the element's index; a rejection ends
    the iteration. *)
Fixpoint reduce_from {A B : Type} (reducer : B -> A -> nat -> M B)
  (index : nat) (input : list A) (accumulator : B) : M B :=
  match input with
  | [] => ret accumulator
  | x :: rest =>
      next <- reducer accumulator x index ;;
      reduce_from reducer (S index) rest next
  end.

Definition reduce {A B : Type} (input : list A)
  (reducer : B -> A -> nat -> M B) (initial : B) : M B :=
  reduce_from reducer 0 input initial.

(** ** The orchestrator *)

Record Options : Type := mkOptions {
  opt_repository : string;
  opt_backend : BackendClass;
  opt_plugins : list Plugin;
  opt_accumulator : fields;
  opt_progress : option Sink;
  opt_reference : string
}.

(** [Math.floor (index * 100 / length)]. *)
Definition percentage (index length : nat) : Z :=
  (Z.of_nat index * 100 / Z.of_nat length)%Z.

(** The function [examineGitRepository] hands to [Bluebird.reduce]: tell
    the sink, if there is one; construct a backend and await its [init];
    await the plugin on that backend; merge its result into the
    accumulator. *)
Definition reducer (options : Options)
  (accumulator : fields) (plugin : Plugin) (index : nat) : M fields :=
  match opt_progress options with
  | Some progress =>
      let p := percentage index (List.length (opt_plugins options)) in
      emit (Progress p) ;; throwing (progress p)
  | None => ret tt
  end ;;
  backend <- construct (opt_backend options)
               (opt_repository options) (opt_reference options) ;;
  emit (InitCalled backend) ;;
  throwing (init backend) ;;
  emit (Extracted index backend (plugin backend)) ;;
  result <- settle (plugin backend) ;;
  merge accumulator result.

Definition examineGitRepository (options : Options) : M fields :=
  reduce (opt_plugins options) (reducer options) (opt_accumulator options).

(** ** The modules the engine requires

    What the engine loads from outside [lib/index.js]: the two backend
    classes, the plugin modules other than [architecture] and
    [changelog], [convertHtmlToMD] of [../utils/markdown] (the [contents]
    of what it resolves to), [yaml.safeLoad], the names [tmp] draws for
    its directories and what [git clone] produces from a source
    directory. *)
Record Environment : Type := mkEnvironment {
  fs : BackendClass;
  github : BackendClass;
  require_plugin : string -> Plugin;
  convertHtmlToMD : contents -> error + string;
  safeLoad : string -> error + value;
  tmp_name : nat -> string;
  git_clone : option tree -> error + tree
}.

(** [String.prototype.trim] on code units below 256: TAB, LF, VT, FF, CR,
    SP and NBSP are stripped from both ends. *)
Definition is_space (c : ascii) : bool :=
  let n := nat_of_ascii c in
  existsb (Nat.eqb n) [9; 10; 11; 12; 13; 32; 160]%nat.

Fixpoint trimStart (s : string) : string :=
  match s with
  | EmptyString => EmptyString
  | String c rest => if is_space c then trimStart rest else s
  end.

Fixpoint trimEnd (s : string) : string :=
  match s with
  | EmptyString => EmptyString
  | String c rest =>
      match trimEnd rest with
      | EmptyString => if is_space c then EmptyString else String c EmptyString
      | kept => String c kept
      end
  end.

Definition trim (s : string) : string := trimEnd (trimStart s).

(** Truthiness of a string. *)
Definition truthy (s : string) : bool :=
  match s with
  | EmptyString => false
  | String _ _ => true
  end.

(** [_.isEmpty] on what [readFile] yields. *)
Definition isEmptyContents (c : contents) : bool :=
  match c with
  | None => true
  | Some s => negb (truthy s)
  end.

Definition contents_value (c : contents) : value :=
  match c with
  | None => VUndefined
  | Some s => VStr s
  end.

(** [plugins/architecture]: both documents are read; the first whose
    conversion, trimmed, is a non-empty string gives the field, and the
    field is [null] when neither does.  The second conversion only runs
    when the first yields nothing. *)
Definition architecture (env : Environment) : Plugin :=
  fun backend =>
    match readFile backend "ARCHITECTURE.md",
          readFile backend "docs/ARCHITECTURE.md" with
    | inl e, _ => inl e
    | inr _, inl e => inl e
    | inr files_architecture, inr files_docsArchitecture =>
        match convertHtmlToMD env files_architecture with
        | inl e => inl e
        | inr first =>
            if truthy (trim first) then
              inr [("architecture", VStr (trim first))]
            else
              match convertHtmlToMD env files_docsArchitecture with
              | inl e => inl e
              | inr second =>
                  if truthy (trim second) then
                    inr [("architecture", VStr (trim second))]
                  else inr [("architecture", VNull)]
              end
        end
    end.

(** [plugins/changelog]: the machine-readable changelog is parsed when
    it has content; otherwise [CHANGELOG.md] is read, and the test that
    follows looks at [contents] once more.  (The module as it stands
    lacks the parenthesis that closes the inner [then]; it is read as
    closing right after the callback.) *)
Definition changelog (env : Environment) : Plugin :=
  fun backend =>
    match readFile backend ".versionbot/CHANGELOG.yml" with
    | inl e => inl e
    | inr contents =>
        if isEmptyContents contents then
          match readFile backend "CHANGELOG.md" with
          | inl e => inl e
          | inr markdown =>
              if isEmptyContents contents then inr [("changelog", VArr [])]
              else inr [("changelog", contents_value markdown)]
          end
        else
          match safeLoad env (match contents with Some s => s | None => "" end)
          with
          | inl e => inl e
          | inr changelog => inr [("changelog", changelog)]
          end
    end.

(** Calling a value of the registry as a plugin.  A member of
    [Object.prototype] is not a plugin: the call, or the [.then] on what
    it returns, throws a [TypeError]. *)
Definition call (env : Environment) (v : registry_value) : Plugin :=
  match v with
  | Module "architecture" => architecture env
  | Module "changelog" => changelog env
  | Module path => require_plugin env path
  | Prototype name =>
      fun _ => inl (TypeError (name ++ " is not a plugin"))
  end.

(** ** Entry points *)

Record UserOptions : Type := mkUserOptions {
  user_reference : string;
  user_progress : option Sink;
  user_whitelistPlugins : option (list string)
}.

Definition unmodelled {A : Type} : M A := fun n => (Unmodelled, n, []).

(** The call both entry points make: [examineGitRepository] on the
    plugins [filterPlugins] selects, with an empty accumulator. *)
Definition examine (env : Environment) (backend : BackendClass)
  (repo : string) (options : UserOptions) : M fields :=
  match filterPlugins (user_whitelistPlugins options) with
  | None => unmodelled
  | Some plugins =>
      examineGitRepository
        {| opt_repository := repo;
           opt_backend := backend;
           opt_plugins := map (call env) plugins;
           opt_accumulator := [];
           opt_progress := user_progress options;
           opt_reference := user_reference options |}
  end.

Definition remote (env : Environment) (gitRepository : string)
  (options : UserOptions) : M fields :=
  examine env (github env) gitRepository options.

(** The host process as [local] sees it: the directories on disk, the
    directories [tmp] will remove when the process exits
    ([_removeObjects]), the names [tmp] has drawn so far, and the counter
    of object identities. *)
Record process : Type := mkProcess {
  disk : list (string * tree);
  removeObjects : list string;
  drawn : nat;
  objects : nat
}.

Fixpoint remove {A : Type} (key : string) (object : list (string * A))
  : list (string * A) :=
  match object with
  | [] => []
  | (k, v) :: rest =>
      if String.eqb key k then remove key rest else (k, v) :: remove key rest
  end.

(** [tmp]'s name generator: a name is drawn and, while it is taken and
    retries are left, drawn again; the last name drawn comes back, as
    free ([inr]) or as taken ([inl]). *)
Fixpoint tmpName (env : Environment) (retries : nat) (p : process)
  : (string + string) * process :=
  let name := tmp_name env (drawn p) in
  let p' := mkProcess (disk p) (removeObjects p) (S (drawn p)) (objects p) in
  match lookup name (disk p) with
  | None => (inr name, p')
  | Some _ =>
      match retries with
      | O => (inl name, p')
      | S retries' => tmpName env retries' p'
      end
  end.

(** [tmp.dirAsync ({unsafeCleanup: true, prefix})], with [tmp]'s default
    of three retries: the directory is created (which is taken to
    succeed) and its removal queued for the exit of the process; the
    promise resolves to the name alone, the removal callback that [tmp]
    passes next to it is dropped by [promisifyAll]. *)
Definition dirAsync (env : Environment) (p : process)
  : (error + string) * process :=
  match tmpName env 3 p with
  | (inl name, p') =>
      (inl (mkError "Error"
              ("Could not get a unique tmp filename, max tries reached "
               ++ name)), p')
  | (inr name, p') =>
      (inr name,
       mkProcess (assign name [] (disk p')) (name :: removeObjects p')
                 (drawn p') (objects p'))
  end.

(** [git ().clone (source, target)]. *)
Definition clone (env : Environment) (source target : string) (p : process)
  : option error * process :=
  match git_clone env (lookup source (disk p)) with
  | inl e => (Some e, p)
  | inr cloned =>
      (None, mkProcess (assign target cloned (disk p)) (removeObjects p)
                       (drawn p) (objects p))
  end.

(** Modelled from the spec: the backend classes ([./backends/fs],
    [./backends/github]) are not part of the engine.  Of the events of a
    run only [init] writes to disk: it resolves the reference, checking
    it out for the local variant, in the directory its backend is bound
    to; reads leave the disk as it is. *)
Definition effect (d : list (string * tree)) (ev : event)
  : list (string * tree) :=
  match ev with
  | InitCalled b =>
      match lookup (repository b) d with
      | Some t =>
          assign (repository b) (class_checkout (class b) (reference b) t) d
      | None => d
      end
  | _ => d
  end.

Definition local (env : Environment) (gitRepository : string)
  (options : UserOptions) (p : process)
  : outcome fields * process * list event :=
  match dirAsync env p with
  | (inl e, p1) => (Rejected e, p1, [])
  | (inr temporaryDirectory, p1) =>
      match clone env gitRepository temporaryDirectory p1 with
      | (Some e, p2) => (Rejected e, p2, [])
      | (None, p2) =>
          match examine env (fs env) temporaryDirectory options (objects p2)
          with
          | (o, n, t) =>
              (o,
               mkProcess (fold_left effect t (disk p2)) (removeObjects p2)
                         (drawn p2) n,
               t)
          end
      end
  end.

(** The exit of the process: with [tmp.setGracefulCleanup ()] in force,
    [tmp] removes every queued directory, contents included, whatever the
    exit code. *)
Definition exit (p : process) : process :=
  mkProcess (fold_left (fun d name => remove name d) (removeObjects p) (disk p))
            [] (drawn p) (objects p).

(** ** What a trace shows *)

Definition reported (t : list event) : list Z :=
  flat_map (fun ev => match ev with Progress p => [p] | _ => [] end) t.

Definition constructed (t : list event) : list Backend :=
  flat_map (fun ev => match ev with Constructed b => [b] | _ => [] end) t.

Definition init_calls (t : list event) : list Backend :=
  flat_map (fun ev => match ev with InitCalled b => [b] | _ => [] end) t.

Definition partial_results (t : list event) : list fields :=
  flat_map
    (fun ev => match ev with Extracted _ _ (inr r) => [r] | _ => [] end) t.

(** ** The merge rule, in the words of the specification

    [deep_merge old new merged]: [merged] is what a field holds after a
    later value [new] is merged onto what it held before ([old], absent
    for a field the accumulator did not have).
    - a later scalar takes precedence;
    - a later [undefined] leaves the field as it was;
    - a later mapping merges key by key: keys it does not name keep their
      value, keys it names are merged in turn (the rule is silent on a
      mapping that meets a sequence);
    - a later sequence merges by index: the elements it has are merged
      onto the elements at the same index, the elements beyond its length
      stay as they were (the rule is silent on a sequence that meets an
      array-like mapping). *)

Definition mapping (old : option value) : fields :=
  match old with Some (VObj props) => props | _ => [] end.

Definition sequence (old : option value) : list value :=
  match old with Some (VArr elems) => elems | _ => [] end.

Inductive deep_merge : option value -> value -> value -> Prop :=
| merge_scalar : forall old s,
    is_scalar s = true -> deep_merge old s s
| merge_undefined : forall old,
    deep_merge old VUndefined
      (match old with Some v => v | None => VUndefined end)
| merge_mapping : forall old source merged,
    (forall elems, old <> Some (VArr elems)) ->
    (forall k, lookup k source = None ->
               lookup k merged = lookup k (mapping old)) ->
    (forall k s, lookup k source = Some s ->
                 exists v, lookup k merged = Some v
                           /\ deep_merge (lookup k (mapping old)) s v) ->
    deep_merge old (VObj source) (VObj merged)
| merge_sequence : forall old source merged,
    array_like old = false ->
    List.length merged
    = Nat.max (List.length (sequence old)) (List.length source) ->
    (forall i s, nth_error source i = Some s ->
                 exists v, nth_error merged i = Some v
                           /\ deep_merge (nth_error (sequence old) i) s v) ->
    (forall i, List.length source <= i ->
               nth_error merged i = nth_error (sequence old) i) ->
    deep_merge old (VArr source) (VArr merged).

(** The deep merge of a list of partial results, in order, onto an
    initial accumulator. *)
Inductive deep_merge_of (initial : fields) : list fields -> fields -> Prop :=
| merge_nothing : deep_merge_of initial [] initial
| merge_later : forall results accumulator result merged,
    deep_merge_of initial results accumulator ->
    deep_merge (Some (VObj accumulator)) (VObj result) (VObj merged) ->
    deep_merge_of initial (results ++ [result]) merged.

(** A JavaScript object has each key once. *)
Fixpoint distinct (names : list string) : bool :=
  match names with
  | [] => true
  | name :: rest => negb (existsb (String.eqb name) rest) && distinct rest
  end.

Fixpoint well_formed (v : value) : bool :=
  match v with
  | VArr elems =>
      (fix all (l : list value) : bool :=
         match l with
         | [] => true
         | x :: l' => well_formed x && all l'
         end) elems
  | VObj props =>
      distinct (keys props)
      && (fix all (l : list (string * value)) : bool :=
            match l with
            | [] => true
            | (_, x) :: l' => well_formed x && all l'
            end) props
  | _ => true
  end.

(** The merges that stay inside the modelled fragment: no key of the
    later value is [exotic] (a member of [Object.prototype] or an array
    index), no mapping meets a sequence and no sequence an array-like
    mapping. *)
Fixpoint modelled (old : option value) (later : value) : bool :=
  match later with
  | VArr source =>
      negb (array_like old)
      && (fix elems (ss ds : list value) : bool :=
            match ss with
            | [] => true
            | s :: ss' => modelled (hd_error ds) s && elems ss' (tl ds)
            end) source (sequence old)
  | VObj source =>
      match old with
      | Some (VArr _) => false
      | _ =>
          (fix props (sp : list (string * value)) : bool :=
             match sp with
             | [] => true
             | (k, s) :: sp' =>
                 negb (exotic k) && modelled (lookup k (mapping old)) s
                 && props sp'
             end) source
      end
  | _ => true
  end.

(** ** The selection rule, in the words of the specification

    Every registered extractor when the whitelist is empty or absent,
    otherwise the registered extractors the whitelist names, in the
    canonical order. *)
Definition canonical_selection (whitelist : option (list string))
  : list registry_value :=
  if isEmpty whitelist then values builtin_plugins
  else
    values
      (filter
         (fun entry =>
            existsb (String.eqb (fst entry))
              (match whitelist with Some names => names | None => [] end))
         builtin_plugins).

(** ** Reading a run *)

Definition outcome_of {A S : Type} (r : outcome A * S * list event)
  : outcome A := fst (fst r).

Definition counter_of {A : Type} (r : outcome A * nat * list event)
  : nat := snd (fst r).

Definition process_of {A : Type} (r : outcome A * process * list event)
  : process := snd (fst r).

Definition trace_of {A S : Type} (r : outcome A * S * list event)
  : list event := snd r.

(** The instance the orchestrator constructs when the counter of object
    identities stands at [n]. *)
Definition bound (options : Options) (n : nat) : Backend :=
  mkBackend (opt_backend options) (opt_repository options)
            (opt_reference options) n.

(** What the sink is told before the extractor at [index], and what it
    answers. *)
Definition announce (options : Options) (index : nat) : list event :=
  match opt_progress options with
  | Some _ => [Progress (percentage index (List.length (opt_plugins options)))]
  | None => []
  end.

Definition sink_throws (options : Options) (index : nat) : option error :=
  match opt_progress options with
  | Some progress =>
      progress (percentage index (List.length (opt_plugins options)))
  | None => None
  end.

(** The run up to and including the [i]-th extractor. *)
Definition processed (options : Options) (i : nat) : M fields :=
  reduce_from (reducer options) 0 (firstn i (opt_plugins options))
    (opt_accumulator options).

(** The position [k] fails in the backend's [init] or in the extractor,
    with [e], when the counter of object identities stands at [n]. *)
Definition fails_at (options : Options) (k n : nat) (e : error) : Prop :=
  sink_throws options k = None
  /\ (init (bound options n) = Some e
      \/ (init (bound options n) = None
          /\ exists plugin, nth_error (opt_plugins options) k = Some plugin
                            /\ plugin (bound options n) = inl e)).



(** The names of a whitelist, each kept where it first occurs. *)
Fixpoint first_occurrences (names : list string) : list string :=
  match names with
  | [] => []
  | name :: rest =>
      name :: filter (fun other => negb (String.eqb other name))
                (first_occurrences rest)
  end.

(** The registered extractor a name stands for, if any. *)
Definition registered (name : string) : list registry_value :=
  match lookup name builtin_plugins with
  | Some v => [v]
  | None => []
  end.

(** The property of [object] a name selects, if the object has it, and
    the names a partial result of [_.pick] does not hold yet. *)
Definition own (object : registry) (k : string) : registry :=
  match lookup k object with
  | Some v => [(k, v)]
  | None => []
  end.

Definition unseen (result : registry) (k : string) : bool :=
  negb (existsb (String.eqb k) (keys result)).

(** A name the selector handles as the specification expects: a property
    name that the registry object does not inherit. *)
Definition ordinary (name : string) : bool :=
  is_key name && negb (inherited name).

(** ** A sample environment

    A backend class whose [init] is fulfilled and which reads from a fixed
    set of files; plugin modules that report their own name; identity
    conversions; a repository on disk. *)

Definition sample_files : list (string * string) :=
  [ ("CHANGELOG.md", "# Changelog"); ("LICENSE", "Apache-2.0") ].

Definition sample_class : BackendClass :=
  mkClass (fun _ _ _ => None)
          (fun _ _ _ path => inr (lookup path sample_files))
          (fun _ t => t).

Definition sample_environment : Environment :=
  mkEnvironment sample_class sample_class
    (fun name _ => inr [(name, VBool true)])
    (fun c => inr (match c with Some s => s | None => "" end))
    (fun s => inr (VStr s))
    (fun n => match n with
              | O => "/tmp/scrutinizer_a"
              | _ => "/tmp/scrutinizer_b"
              end)
    (fun source => match source with
                   | Some t => inr t
                   | None => inl (mkError "CloneError" "not a repository")
                   end).

Definition silent : Sink := fun _ => None.

Definition plugin_a : Plugin :=
  fun _ => inr [ ("name", VStr "a");
                 ("tags", VArr [VNum 1; VNum 2; VNum 3]);
                 ("meta", VObj [("x", VNum 1)]) ].

Definition plugin_b : Plugin :=
  fun _ => inr [ ("name", VStr "b");
                 ("tags", VArr [VNum 9]);
                 ("meta", VObj [("y", VNull)]) ].

Definition plugin_failing : Plugin :=
  fun _ => inl (mkError "BackendIOError" "connection reset").

Definition sample_options : Options :=
  mkOptions "owner/project" sample_class [plugin_a; plugin_b] []
            (Some silent) "master".

Definition failing_options : Options :=
  mkOptions "owner/project" sample_class [plugin_failing; plugin_b] []
            (Some silent) "master".

Definition late_failing_options : Options :=
  mkOptions "owner/project" sample_class [plugin_a; plugin_failing; plugin_b] []
            (Some silent) "master".

Definition sample_process : process :=
  mkProcess [("/home/user/project", [("LICENSE", "Apache-2.0")])] [] 0 0.

(** ** Further readings and samples *)

(** The indices of the extractors a run has called, in order. *)
Definition invoked (t : list event) : list nat :=
  flat_map (fun ev => match ev with Extracted i _ _ => [i] | _ => [] end) t.

(** The same request without its progress sink. *)
Definition without_progress (options : Options) : Options :=
  mkOptions (opt_repository options) (opt_backend options)
            (opt_plugins options) (opt_accumulator options) None
            (opt_reference options).

(** A sink that throws once half of the work is announced. *)
Definition interrupting : Sink :=
  fun p => if (50 <=? p)%Z then Some (mkError "Error" "stop") else None.

Definition interrupted_options : Options :=
  mkOptions "owner/project" sample_class [plugin_a; plugin_b] []
            (Some interrupting) "master".

Definition single_options : Options :=
  mkOptions "owner/project" sample_class [plugin_a] [] (Some silent) "master".

(** A repository with an architecture document at its root and a broken
    one under [docs]: the conversion of the latter fails. *)
Definition documented_class : BackendClass :=
  mkClass (fun _ _ _ => None)
          (fun _ _ _ path =>
             inr (lookup path [ ("ARCHITECTURE.md", "  # Design  ");
                                ("docs/ARCHITECTURE.md", "<broken") ]))
          (fun _ t => t).

Definition documented_environment : Environment :=
  mkEnvironment documented_class documented_class
    (fun name _ => inr [(name, VBool true)])
    (fun c => match c with
              | Some "<broken" => inl (mkError "Error" "cannot convert")
              | Some s => inr s
              | None => inr ""
              end)
    (fun s => inr (VStr s))
    (fun n => match n with
              | O => "/tmp/scrutinizer_a"
              | _ => "/tmp/scrutinizer_b"
              end)
    (fun source => match source with
                   | Some t => inr t
                   | None => inl (mkError "CloneError" "not a repository")
                   end).

(** An environment in which nothing can be cloned. *)
Definition uncloneable_environment : Environment :=
  mkEnvironment sample_class sample_class
    (fun name _ => inr [(name, VBool true)])
    (fun c => inr (match c with Some s => s | None => "" end))
    (fun s => inr (VStr s))
    (fun n => match n with
              | O => "/tmp/scrutinizer_a"
              | _ => "/tmp/scrutinizer_b"
              end)
    (fun _ => inl (mkError "CloneError" "not a repository")).

(** * Properties *)

(** ** Objects as property lists *)

Lemma lookup_assign_same {A : Type} (k : string) (v : A) object :
  lookup k (assign k v object) = Some v.
Proof.
  induction object as [|[k' w] rest IH]; simpl.
  - now rewrite String.eqb_refl.
  - destruct (String.eqb k k') eqn:Hk; simpl; [now rewrite Hk|].
    destruct (precedes k k'); simpl.
    + now rewrite String.eqb_refl.
    + now rewrite Hk.
Qed.

Lemma lookup_assign_other {A : Type} (k k' : string) (v : A) object :
  k <> k' -> lookup k (assign k' v object) = lookup k object.
Proof.
  intros Hne. apply String.eqb_neq in Hne.
  induction object as [|[k0 w] rest IH]; simpl.
  - now rewrite Hne.
  - destruct (String.eqb k' k0) eqn:Hk; simpl.
    + apply String.eqb_eq in Hk. subst k0. now rewrite Hne.
    + destruct (precedes k' k0); simpl.
      * now rewrite Hne.
      * now rewrite IH.
Qed.

Lemma precedes_plain (k other : string) :
  array_index k = None -> precedes k other = false.
Proof. unfold precedes. now intros ->. Qed.

Lemma exotic_false (k : string) :
  exotic k = false -> inherited k = false /\ array_index k = None.
Proof.
  unfold exotic, is_index. intros H. apply orb_false_iff in H as [Hi Hx].
  split; [exact Hi|]. now destruct (array_index k).
Qed.

Lemma existsb_eqb_false (k : string) names :
  existsb (String.eqb k) names = false -> ~ In k names.
Proof.
  intros H Hin. assert (existsb (String.eqb k) names = true) as Ht.
  { apply existsb_exists. exists k. split; auto. apply String.eqb_refl. }
  congruence.
Qed.

Lemma lookup_None_keys {A : Type} (k : string) (object : list (string * A)) :
  ~ In k (keys object) -> lookup k object = None.
Proof.
  induction object as [|[k' w] rest IH]; simpl; auto.
  intros Hn. destruct (String.eqb k k') eqn:Hk.
  - apply String.eqb_eq in Hk. subst. tauto.
  - apply IH. tauto.
Qed.

(** ** Induction on values, through the nested lists *)

Lemma value_nested_ind (P : value -> Prop) :
  P VUndefined -> P VNull -> (forall b, P (VBool b)) ->
  (forall n, P (VNum n)) -> (forall s, P (VStr s)) ->
  (forall elems, Forall P elems -> P (VArr elems)) ->
  (forall props, Forall (fun kv => P (snd kv)) props -> P (VObj props)) ->
  forall v, P v.
Proof.
  intros Hu Hn Hb Hz Hs Ha Ho.
  fix IH 1. intros [ | | b | n | s | elems | props].
  - exact Hu.
  - exact Hn.
  - apply Hb.
  - apply Hz.
  - apply Hs.
  - apply Ha. induction elems as [|x rest IHl]; constructor.
    + apply IH.
    + exact IHl.
  - apply Ho. induction props as [|[k x] rest IHl]; constructor.
    + apply IH.
    + exact IHl.
Qed.

Lemma well_formed_VArr elems :
  well_formed (VArr elems) = true <->
  Forall (fun x => well_formed x = true) elems.
Proof.
  induction elems as [|x rest IH].
  - split; auto.
  - change (well_formed (VArr (x :: rest)))
      with (well_formed x && well_formed (VArr rest)).
    rewrite andb_true_iff, IH. split.
    + intros [H1 H2]. constructor; auto.
    + intros H. inversion H; auto.
Qed.

Lemma well_formed_VObj props :
  well_formed (VObj props) = true <->
  distinct (keys props) = true
  /\ Forall (fun kv => well_formed (snd kv) = true) props.
Proof.
  assert (forall l,
    (fix all (l : list (string * value)) : bool :=
       match l with
       | [] => true
       | (_, x) :: l' => well_formed x && all l'
       end) l = true
    <-> Forall (fun kv => well_formed (snd kv) = true) l) as Hall.
  { induction l as [|[k x] rest IH].
    - split; auto.
    - rewrite andb_true_iff, IH. split.
      + intros [H1 H2]. constructor; auto.
      + intros H. inversion H; auto. }
  simpl. rewrite andb_true_iff, Hall. tauto.
Qed.

(** ** The loops of [_.merge] *)

Section MergeLoopFacts.
Variable f : option value -> value -> option value.

Lemma mergeProps_keywise source : forall object merged,
  distinct (keys source) = true ->
  mergeProps f source object = Some merged ->
  (forall k, lookup k source = None -> lookup k merged = lookup k object)
  /\ (forall k s, lookup k source = Some s ->
        exists v, lookup k merged = Some v
                  /\ f (lookup k object) s = Some v).
Proof.
  induction source as [|[key srcValue] rest IH]; intros object merged Hd Hm.
  - simpl in Hm. injection Hm as <-. split; [reflexivity | discriminate].
  - simpl in Hm, Hd. apply andb_true_iff in Hd as [Hfresh Hd].
    apply negb_true_iff, existsb_eqb_false in Hfresh.
    destruct (exotic key); [discriminate|].
    destruct (f (lookup key object) srcValue) as [v|] eqn:Hf; [|discriminate].
    destruct (IH _ _ Hd Hm) as [Hkeep Hset]. split.
    + intros k Hk. simpl in Hk.
      destruct (String.eqb k key) eqn:Hkk; [discriminate|].
      rewrite (Hkeep k Hk). apply lookup_assign_other.
      now apply String.eqb_neq.
    + intros k s Hk. simpl in Hk.
      destruct (String.eqb k key) eqn:Hkk.
      * apply String.eqb_eq in Hkk. subst k. injection Hk as <-.
        exists v. split; auto.
        rewrite (Hkeep key (lookup_None_keys _ _ Hfresh)).
        apply lookup_assign_same.
      * destruct (Hset k s Hk) as (w & Hw & Hfw). exists w. split; auto.
        rewrite lookup_assign_other in Hfw; auto.
        now apply String.eqb_neq.
Qed.

Lemma mergeElems_indexwise source : forall object merged,
  mergeElems f source object = Some merged ->
  List.length merged = Nat.max (List.length object) (List.length source)
  /\ (forall i s, nth_error source i = Some s ->
        exists v, nth_error merged i = Some v
                  /\ f (nth_error object i) s = Some v)
  /\ (forall i, List.length source <= i ->
        nth_error merged i = nth_error object i).
Proof.
  induction source as [|srcValue rest IH]; intros object merged Hm.
  - simpl in Hm. injection Hm as <-. repeat split.
    + simpl. lia.
    + intros [|i] s H; discriminate.
  - simpl in Hm.
    destruct (f (hd_error object) srcValue) as [v|] eqn:Hf; [|discriminate].
    destruct (mergeElems f rest (tl object)) as [vs|] eqn:Hr; [|discriminate].
    injection Hm as <-.
    destruct (IH _ _ Hr) as (Hlen & Hset & Hkeep). repeat split.
    + simpl. rewrite Hlen. destruct object; simpl; lia.
    + intros [|i] s Hs; simpl in Hs.
      * injection Hs as <-. exists v. split; [reflexivity|].
        destruct object; exact Hf.
      * destruct (Hset i s Hs) as (w & Hw & Hfw). exists w.
        split; [exact Hw|].
        destruct object; simpl in *; [|exact Hfw].
        replace (nth_error [] i) with (@None value) in Hfw; [exact Hfw|].
        now destruct i.
    + intros [|i] Hi; simpl in Hi; [lia|]. simpl.
      rewrite Hkeep by lia. destruct object; simpl; [|reflexivity].
      now destruct i.
Qed.
End MergeLoopFacts.

Lemma lookup_In {A : Type} (k : string) (v : A) object :
  lookup k object = Some v -> In (k, v) object.
Proof.
  induction object as [|[k' w] rest IH]; simpl; [discriminate|].
  destruct (String.eqb k k') eqn:Hk.
  - apply String.eqb_eq in Hk. intros [= ->]. subst. now left.
  - intros H. right. auto.
Qed.

(** [mergeValue] follows the merge rule. *)
Lemma mergeValue_deep_merge : forall s,
  well_formed s = true ->
  forall old v, mergeValue old s = Some v -> deep_merge old s v.
Proof.
  induction s as [ | | b | n | s | elems IH | props IH ] using value_nested_ind;
    intros Hwf old v Hm.
  - simpl in Hm. injection Hm as <-. constructor.
  - simpl in Hm. injection Hm as <-. now constructor.
  - simpl in Hm. injection Hm as <-. now constructor.
  - simpl in Hm. injection Hm as <-. now constructor.
  - simpl in Hm. injection Hm as <-. now constructor.
  - apply well_formed_VArr in Hwf.
    change (mergeValue old (VArr elems))
      with (if array_like old then None
            else option_map VArr (mergeElems mergeValue elems (sequence old)))
      in Hm.
    destruct (array_like old) eqn:Hlike; [discriminate|].
    destruct (mergeElems mergeValue elems (sequence old)) as [merged|] eqn:He;
      [|discriminate].
    injection Hm as <-.
    destruct (mergeElems_indexwise _ _ _ _ He) as (Hlen & Hset & Hkeep).
    apply merge_sequence; auto.
    intros i s Hs. destruct (Hset i s Hs) as (w & Hw & Hf).
    exists w. split; auto.
    apply nth_error_In in Hs. rewrite Forall_forall in IH, Hwf.
    apply (IH s Hs (Hwf s Hs)). exact Hf.
  - apply well_formed_VObj in Hwf as [Hd Hwf].
    assert (option_map VObj (mergeProps mergeValue props (mapping old)) = Some v)
      as Hm'.
    { destruct old as [[ | | | | | |]|]; simpl in Hm |- *;
        solve [exact Hm | discriminate]. }
    destruct (mergeProps mergeValue props (mapping old)) as [merged|] eqn:He;
      [|discriminate].
    injection Hm' as <-.
    destruct (mergeProps_keywise _ _ _ _ Hd He) as (Hkeep & Hset).
    apply merge_mapping; auto.
    { intros elems ->. discriminate Hm. }
    intros k s Hs. destruct (Hset k s Hs) as (w & Hw & Hf).
    exists w. split; auto.
    apply lookup_In in Hs. rewrite Forall_forall in IH, Hwf.
    apply (IH (k, s) Hs (Hwf (k, s) Hs)). exact Hf.
Qed.

Lemma baseMerge_deep_merge accumulator result merged :
  well_formed (VObj result) = true ->
  baseMerge accumulator result = Some merged ->
  deep_merge (Some (VObj accumulator)) (VObj result) (VObj merged).
Proof.
  intros Hwf Hm. apply mergeValue_deep_merge; auto.
  simpl. unfold baseMerge in Hm. now rewrite Hm.
Qed.

(** Inside the modelled fragment [_.merge] is defined. *)
Lemma mergeValue_defined : forall s,
  well_formed s = true ->
  forall old, modelled old s = true -> exists v, mergeValue old s = Some v.
Proof.
  induction s as [ | | b | n | s | elems IH | props IH ] using value_nested_ind;
    intros Hwf old Hm; try (simpl; eauto; fail).
  - apply well_formed_VArr in Hwf.
    change (mergeValue old (VArr elems))
      with (if array_like old then None
            else option_map VArr (mergeElems mergeValue elems (sequence old))).
    simpl in Hm. apply andb_true_iff in Hm as [Hlike Hm].
    apply negb_true_iff in Hlike. rewrite Hlike.
    revert Hm. generalize (sequence old) as object.
    induction elems as [|x rest IHl]; intros object Hm.
    + simpl. eauto.
    + apply andb_true_iff in Hm as [Hx Hrest].
      inversion IH as [|? ? Hx' IH']; subst.
      inversion Hwf as [|? ? Hwx Hwf']; subst.
      destruct (Hx' Hwx _ Hx) as (v & Hv).
      destruct (IHl IH' Hwf' _ Hrest) as (vs & Hvs).
      simpl. rewrite Hv.
      destruct (mergeElems mergeValue rest (tl object)) as [ws|];
        [|discriminate Hvs]. simpl. eauto.
  - apply well_formed_VObj in Hwf as [Hd Hwf].
    assert (mergeValue old (VObj props)
            = option_map VObj (mergeProps mergeValue props (mapping old))
            /\ (fix props (sp : list (string * value)) : bool :=
                  match sp with
                  | [] => true
                  | (k, s) :: sp' =>
                      negb (exotic k) && modelled (lookup k (mapping old)) s
                      && props sp'
                  end) props = true) as [-> Hall].
    { destruct old as [[ | | | | | |]|]; simpl in Hm |- *;
        solve [split; [reflexivity | exact Hm] | discriminate]. }
    clear Hm. revert Hall. generalize (mapping old) as object.
    assert (forall object object',
      (forall k, In k (keys props) -> lookup k object' = lookup k object) ->
      (fix go (sp : list (string * value)) : bool :=
         match sp with
         | [] => true
         | (k, s) :: sp' =>
             negb (exotic k) && modelled (lookup k object) s && go sp'
         end) props = true ->
      exists merged, mergeProps mergeValue props object' = Some merged) as Hgo.
    { induction props as [|[k x] rest IHl]; intros object object' Hsame Hall.
      - simpl. eauto.
      - apply andb_true_iff in Hall as [Hall Hrest].
        apply andb_true_iff in Hall as [Hinh Hx].
        apply negb_true_iff in Hinh.
        inversion IH as [|? ? Hx' IH']; subst.
        inversion Hwf as [|? ? Hwx Hwf']; subst.
        simpl in Hd. apply andb_true_iff in Hd as [Hfresh Hd].
        apply negb_true_iff, existsb_eqb_false in Hfresh.
        simpl in Hx', Hwx.
        simpl. rewrite Hinh, (Hsame k) by (simpl; now left).
        destruct (Hx' Hwx _ Hx) as (v & ->).
        apply (IHl IH' Hd Hwf' object); auto.
        intros k' Hk'. rewrite lookup_assign_other.
        + apply Hsame. simpl. now right.
        + intros ->. contradiction. }
    intros object Hall. destruct (Hgo object object (fun _ _ => eq_refl) Hall)
      as (merged & ->). simpl. eauto.
Qed.

Lemma deep_merge_of_cons initial result first results accumulator :
  deep_merge (Some (VObj initial)) (VObj result) (VObj first) ->
  deep_merge_of first results accumulator ->
  deep_merge_of initial (result :: results) accumulator.
Proof.
  intros Hfirst Hrest. induction Hrest as [|rs acc r merged _ IH Hm].
  - apply (merge_later initial [] initial result first); [constructor | exact Hfirst].
  - change (result :: rs ++ [r]) with ((result :: rs) ++ [r]).
    apply (merge_later initial (result :: rs) acc r merged); assumption.
Qed.

(** ** One turn of the orchestrator's loop *)

Lemma reducer_step options accumulator plugin index n :
  reducer options accumulator plugin index n =
  match sink_throws options index with
  | Some e => (Rejected e, n, announce options index)
  | None =>
      let b := bound options n in
      match init b with
      | Some e =>
          (Rejected e, S n,
           announce options index ++ [Constructed b; InitCalled b])
      | None =>
          let t := announce options index
                   ++ [Constructed b; InitCalled b;
                       Extracted index b (plugin b)] in
          match plugin b with
          | inl e => (Rejected e, S n, t)
          | inr result =>
              match baseMerge accumulator result with
              | Some merged => (Fulfilled merged, S n, t)
              | None => (Unmodelled, S n, t)
              end
          end
      end
  end.
Proof.
  unfold reducer, sink_throws, announce, bound, bind, emit, throwing, construct,
    settle, merge, ret, reject.
  destruct (opt_progress options) as [progress|]; simpl.
  - destruct (progress _) as [e|]; simpl; [reflexivity|].
    destruct (init _) as [e|]; simpl; [reflexivity|].
    destruct (plugin _) as [e|result]; simpl; [reflexivity|].
    destruct (baseMerge _ _); reflexivity.
  - destruct (init _) as [e|]; simpl; [reflexivity|].
    destruct (plugin _) as [e|result]; simpl; [reflexivity|].
    destruct (baseMerge _ _); reflexivity.
Qed.

Lemma reduce_from_cons {A B : Type} (R : B -> A -> nat -> M B)
  index x rest accumulator n :
  reduce_from R index (x :: rest) accumulator n =
  match R accumulator x index n with
  | (Fulfilled next, n', t) =>
      match reduce_from R (S index) rest next n' with
      | (o, n'', t') => (o, n'', t ++ t')
      end
  | (Rejected e, n', t) => (Rejected e, n', t)
  | (Unmodelled, n', t) => (Unmodelled, n', t)
  end.
Proof. reflexivity. Qed.

Lemma reduce_from_app {A B : Type} (R : B -> A -> nat -> M B) xs :
  forall ys index accumulator n,
  reduce_from R index (xs ++ ys) accumulator n =
  (next <- reduce_from R index xs accumulator ;;
   reduce_from R (index + List.length xs) ys next) n.
Proof.
  induction xs as [|x xs IH]; intros ys index accumulator n.
  - simpl. unfold bind, ret. rewrite Nat.add_0_r.
    destruct (reduce_from R index ys accumulator n) as [[o n'] t]. reflexivity.
  - simpl app. rewrite reduce_from_cons. unfold bind at 1.
    rewrite reduce_from_cons.
    destruct (R accumulator x index n) as [[[next|e|] n'] t]; try reflexivity.
    rewrite IH. unfold bind.
    replace (index + List.length (x :: xs)) with (S index + List.length xs)
      by (simpl; lia).
    destruct (reduce_from R (S index) xs next n') as [[[a|e|] n''] t'];
      try reflexivity.
    destruct (reduce_from R (S index + List.length xs) ys a n'') as [[o n3] t3].
    now rewrite app_assoc.
Qed.

(** Case analysis on the first turn of a run. *)
Ltac first_turn opts acc0 plg idx cnt :=
  rewrite reduce_from_cons, reducer_step;
  let e := fresh "e" in
  let Hsink := fresh "Hsink" in
  let Hinit := fresh "Hinit" in
  let Hplugin := fresh "Hplugin" in
  let Hmerge := fresh "Hmerge" in
  let result := fresh "result" in
  let merged := fresh "merged" in
  destruct (sink_throws opts idx) as [e|] eqn:Hsink;
  [ | cbv zeta;
      destruct (init (bound opts cnt)) as [e|] eqn:Hinit;
      [ | destruct (plg (bound opts cnt)) as [e|result] eqn:Hplugin;
          [ | destruct (baseMerge acc0 result) as [merged|] eqn:Hmerge ] ] ].

Lemma partial_results_app t t' :
  partial_results (t ++ t') = partial_results t ++ partial_results t'.
Proof. apply flat_map_app. Qed.

Lemma partial_results_turn options index b (r : error + fields) :
  partial_results
    (announce options index ++ [Constructed b; InitCalled b; Extracted index b r])
  = match r with inr result => [result] | inl _ => [] end.
Proof.
  rewrite partial_results_app. unfold announce.
  destruct (opt_progress options); destruct r; reflexivity.
Qed.

(** A run of the loop that fulfils has merged, in order, the result each
    extractor returned on the backend constructed for it. *)
Lemma reduce_from_accumulates options plugins :
  forall index initial n accumulator n' t,
  (forall plugin b r, In plugin plugins -> plugin b = inr r ->
                      well_formed (VObj r) = true) ->
  reduce_from (reducer options) index plugins initial n
  = (Fulfilled accumulator, n', t) ->
  deep_merge_of initial (partial_results t) accumulator
  /\ List.length (partial_results t) = List.length plugins
  /\ forall j plugin, nth_error plugins j = Some plugin ->
        exists r, plugin (bound options (n + j)) = inr r
                  /\ nth_error (partial_results t) j = Some r.
Proof.
  induction plugins as [|plugin rest IH];
    intros index initial n accumulator n' t Hwf Hrun.
  - simpl in Hrun. injection Hrun as <- <- <-. simpl.
    split; [constructor|]. split; [reflexivity|].
    intros [|j] plugin H; discriminate.
  - revert Hrun. first_turn options initial plugin index n; try discriminate.
    destruct (reduce_from (reducer options) (S index) rest merged (S n))
      as [[o n''] t'] eqn:Hrest.
    intros [= -> -> <-].
    destruct (IH _ _ _ _ _ _ (fun p b r Hp => Hwf p b r (or_intror Hp)) Hrest)
      as (Hdm & Hlen & Hnth).
    rewrite partial_results_app, partial_results_turn. simpl.
    split; [|split].
    + apply deep_merge_of_cons with (first := merged); auto.
      apply baseMerge_deep_merge; auto.
      apply (Hwf plugin (bound options n)); auto. now left.
    + now rewrite Hlen.
    + intros [|j] p Hp; simpl in Hp.
      * injection Hp as <-. exists result. rewrite Nat.add_0_r. auto.
      * destruct (Hnth j p Hp) as (r & Hr & Hj). exists r.
        replace (n + S j) with (S n + j) by lia. auto.
Qed.

(** ** Induction on the turns of a run

    A run of the loop either has nothing left to do, or stops in its
    first turn (the sink throws, [init] rejects, the extractor rejects,
    the merge leaves the model), or merges the first result and goes on
    with the rest. *)
Lemma run_ind (options : Options)
  (P : nat -> list Plugin -> fields -> nat
       -> outcome fields * nat * list event -> Prop) :
  (forall index accumulator n,
      P index [] accumulator n (Fulfilled accumulator, n, [])) ->
  (forall index plugin rest accumulator n e,
      sink_throws options index = Some e ->
      P index (plugin :: rest) accumulator n
        (Rejected e, n, announce options index)) ->
  (forall index plugin rest accumulator n e,
      sink_throws options index = None ->
      init (bound options n) = Some e ->
      P index (plugin :: rest) accumulator n
        (Rejected e, S n,
         announce options index
         ++ [Constructed (bound options n); InitCalled (bound options n)])) ->
  (forall index plugin rest accumulator n e,
      sink_throws options index = None ->
      init (bound options n) = None ->
      plugin (bound options n) = inl e ->
      P index (plugin :: rest) accumulator n
        (Rejected e, S n,
         announce options index
         ++ [Constructed (bound options n); InitCalled (bound options n);
             Extracted index (bound options n) (inl e)])) ->
  (forall index plugin rest accumulator n result,
      sink_throws options index = None ->
      init (bound options n) = None ->
      plugin (bound options n) = inr result ->
      baseMerge accumulator result = None ->
      P index (plugin :: rest) accumulator n
        (Unmodelled, S n,
         announce options index
         ++ [Constructed (bound options n); InitCalled (bound options n);
             Extracted index (bound options n) (inr result)])) ->
  (forall index plugin rest accumulator n result merged o n' t',
      sink_throws options index = None ->
      init (bound options n) = None ->
      plugin (bound options n) = inr result ->
      baseMerge accumulator result = Some merged ->
      reduce_from (reducer options) (S index) rest merged (S n) = (o, n', t') ->
      P (S index) rest merged (S n) (o, n', t') ->
      P index (plugin :: rest) accumulator n
        (o, n',
         (announce options index
          ++ [Constructed (bound options n); InitCalled (bound options n);
              Extracted index (bound options n) (inr result)]) ++ t')) ->
  forall plugins index accumulator n,
    P index plugins accumulator n
      (reduce_from (reducer options) index plugins accumulator n).
Proof.
  intros Hnil Hsink Hinit Hplugin Hmerge Hnext.
  induction plugins as [|plugin rest IH]; intros index accumulator n.
  - apply Hnil.
  - first_turn options accumulator plugin index n.
    + now apply Hsink.
    + now apply Hinit.
    + now apply Hplugin.
    + destruct (reduce_from (reducer options) (S index) rest merged (S n))
        as [[o n'] t'] eqn:Hrest.
      apply Hnext with (merged := merged); auto.
      rewrite <- Hrest. apply IH.
    + now apply Hmerge.
Qed.

Lemma constructed_app t t' :
  constructed (t ++ t') = constructed t ++ constructed t'.
Proof. apply flat_map_app. Qed.

Lemma init_calls_app t t' :
  init_calls (t ++ t') = init_calls t ++ init_calls t'.
Proof. apply flat_map_app. Qed.

Lemma reported_app t t' : reported (t ++ t') = reported t ++ reported t'.
Proof. apply flat_map_app. Qed.

Lemma constructed_announce options index : constructed (announce options index) = [].
Proof. unfold announce. now destruct (opt_progress options). Qed.

Lemma init_calls_announce options index : init_calls (announce options index) = [].
Proof. unfold announce. now destruct (opt_progress options). Qed.

Lemma In_announce options index i b res :
  ~ In (Extracted i b res) (announce options index).
Proof.
  unfold announce. destruct (opt_progress options); simpl; [|tauto].
  intros [H|[]]. discriminate.
Qed.

(** Every turn constructs one instance, with the next identity, and calls
    [init] on it. *)
Lemma run_constructs options plugins index accumulator n :
  let r := reduce_from (reducer options) index plugins accumulator n in
  n <= counter_of r
  /\ constructed (trace_of r) = map (bound options) (seq n (counter_of r - n))
  /\ init_calls (trace_of r) = constructed (trace_of r).
Proof.
  cbv zeta. revert plugins index accumulator n.
  apply (run_ind options (fun _ _ _ n r =>
    n <= counter_of r
    /\ constructed (trace_of r) = map (bound options) (seq n (counter_of r - n))
    /\ init_calls (trace_of r) = constructed (trace_of r)));
    unfold counter_of, trace_of; cbn [fst snd]; intros.
  - rewrite Nat.sub_diag. repeat split; auto.
  - rewrite Nat.sub_diag, constructed_announce, init_calls_announce.
    repeat split; auto.
  - rewrite constructed_app, init_calls_app, constructed_announce,
      init_calls_announce.
    replace (S n - n) with 1 by lia. repeat split; auto.
  - rewrite constructed_app, init_calls_app, constructed_announce,
      init_calls_announce.
    replace (S n - n) with 1 by lia. repeat split; auto.
  - rewrite constructed_app, init_calls_app, constructed_announce,
      init_calls_announce.
    replace (S n - n) with 1 by lia. repeat split; auto.
  - destruct H4 as (Hle & Hc & Hi).
    rewrite !constructed_app, !init_calls_app, constructed_announce,
      init_calls_announce, Hc, Hi, Hc.
    replace (n' - n) with (S (n' - S n)) by lia. repeat split; auto. lia.
Qed.

Lemma In_turn options index b0 r0 i b res :
  In (Extracted i b res)
     (announce options index
      ++ [Constructed b0; InitCalled b0; Extracted index b0 r0]) ->
  i = index /\ b = b0 /\ res = r0.
Proof.
  intros H. apply in_app_or in H as [H|H].
  - now apply In_announce in H.
  - simpl in H. destruct H as [H|[H|[H|[]]]]; try discriminate.
    injection H as -> -> ->. auto.
Qed.

(** Every extractor that runs does so right after the sink was told its
    percentage, its own backend was constructed and [init] on that backend
    was fulfilled. *)
Lemma run_extracts options plugins index accumulator n :
  let r := reduce_from (reducer options) index plugins accumulator n in
  forall i b res, In (Extracted i b res) (trace_of r) ->
    index <= i < index + List.length plugins
    /\ b = bound options (n + (i - index))
    /\ init b = None
    /\ (exists plugin, nth_error plugins (i - index) = Some plugin
                       /\ res = plugin b)
    /\ exists t0 t2,
         trace_of r
         = t0 ++ (announce options i
                  ++ [Constructed b; InitCalled b; Extracted i b res]) ++ t2.
Proof.
  cbv zeta. revert plugins index accumulator n.
  apply (run_ind options (fun index plugins _ n r =>
    forall i b res, In (Extracted i b res) (trace_of r) ->
    index <= i < index + List.length plugins
    /\ b = bound options (n + (i - index))
    /\ init b = None
    /\ (exists plugin, nth_error plugins (i - index) = Some plugin
                       /\ res = plugin b)
    /\ exists t0 t2,
         trace_of r
         = t0 ++ (announce options i
                  ++ [Constructed b; InitCalled b; Extracted i b res]) ++ t2));
    unfold trace_of; cbn [fst snd]; intros.
  - destruct H.
  - now apply In_announce in H0.
  - apply in_app_or in H1 as [H1|H1]; [now apply In_announce in H1|].
    simpl in H1. destruct H1 as [H1|[H1|[]]]; discriminate.
  - apply In_turn in H2 as (-> & -> & ->).
    rewrite Nat.sub_diag, Nat.add_0_r. simpl List.length.
    repeat split; auto; try lia.
    + exists plugin. split; auto.
    + exists [], []. now rewrite app_nil_r.
  - apply In_turn in H3 as (-> & -> & ->).
    rewrite Nat.sub_diag, Nat.add_0_r. simpl List.length.
    repeat split; auto; try lia.
    + exists plugin. split; auto.
    + exists [], []. now rewrite app_nil_r.
  - apply in_app_or in H5 as [H5|H5].
    + apply In_turn in H5 as (-> & -> & ->).
      rewrite Nat.sub_diag, Nat.add_0_r. simpl List.length.
      repeat split; auto; try lia.
      * exists plugin. split; auto.
      * exists [], t'. reflexivity.
    + destruct (H4 _ _ _ H5) as (Hi & Hb & Hinit & (p & Hp & Hres) & t0 & t2 & Ht).
      simpl List.length.
      replace (i - index) with (S (i - S index)) by lia.
      repeat split; auto; try lia.
      * rewrite Hb. f_equal. lia.
      * exists p. split; auto.
      * exists ((announce options index
                 ++ [Constructed (bound options n); InitCalled (bound options n);
                     Extracted index (bound options n) (inr result)]) ++ t0), t2.
        rewrite Ht. now rewrite <- !app_assoc.
Qed.

Lemma reported_announce options index sink :
  opt_progress options = Some sink ->
  reported (announce options index)
  = [percentage index (List.length (opt_plugins options))].
Proof. unfold announce. now intros ->. Qed.

(** With a sink, the percentages reported are those of the extractors the
    run reaches, in order; a fulfilled run reaches all of them. *)
Lemma run_reports options sink plugins index accumulator n :
  opt_progress options = Some sink ->
  let r := reduce_from (reducer options) index plugins accumulator n in
  exists reached,
    reached <= List.length plugins
    /\ reported (trace_of r)
       = map (fun i => percentage i (List.length (opt_plugins options)))
             (seq index reached)
    /\ (forall merged, outcome_of r = Fulfilled merged ->
                       reached = List.length plugins).
Proof.
  intros Hs. cbv zeta. revert plugins index accumulator n.
  apply (run_ind options (fun index plugins _ _ r =>
    exists reached,
    reached <= List.length plugins
    /\ reported (trace_of r)
       = map (fun i => percentage i (List.length (opt_plugins options)))
             (seq index reached)
    /\ (forall merged, outcome_of r = Fulfilled merged ->
                       reached = List.length plugins)));
    unfold trace_of, outcome_of; cbn [fst snd]; intros;
    rewrite ?reported_app, ?(reported_announce _ _ _ Hs).
  - exists 0. repeat split; auto.
  - exists 1. simpl. repeat split; auto; try lia. discriminate.
  - exists 1. simpl. repeat split; auto; try lia. discriminate.
  - exists 1. simpl. repeat split; auto; try lia. discriminate.
  - exists 1. simpl. repeat split; auto; try lia. discriminate.
  - destruct H4 as (reached & Hle & Hr & Hf). exists (S reached).
    simpl. rewrite Hr. repeat split; auto; try lia.
    intros merged0 Ho. f_equal. eauto.
Qed.

Lemma percentage_range i len :
  i < len -> (0 <= percentage i len <= 99)%Z.
Proof.
  intros Hi. unfold percentage. split.
  - apply Z.div_pos; lia.
  - assert (Z.of_nat i * 100 / Z.of_nat len < 100)%Z; [|lia].
    apply Z.div_lt_upper_bound; lia.
Qed.

Lemma skipn_nth_error {A : Type} (l : list A) : forall k x,
  nth_error l k = Some x -> skipn k l = x :: skipn (S k) l.
Proof.
  induction l as [|y l IH]; intros [|k] x H; simpl in *; try discriminate.
  - now injection H as ->.
  - now apply IH.
Qed.


(** The whole run goes through the state reached after its first [i]
    extractors. *)
Lemma examine_split options i n :
  i <= List.length (opt_plugins options) ->
  examineGitRepository options n
  = (next <- processed options i ;;
     reduce_from (reducer options) i (skipn i (opt_plugins options)) next) n.
Proof.
  intros Hi. unfold examineGitRepository, reduce, processed.
  rewrite <- (firstn_skipn i (opt_plugins options)) at 1.
  rewrite reduce_from_app. simpl. now rewrite length_firstn, Nat.min_l.
Qed.

(** ** The accumulator *)


(** ** Fail-fast *)

Lemma run_fulfilled_counter options plugins index accumulator n :
  let r := reduce_from (reducer options) index plugins accumulator n in
  forall merged, outcome_of r = Fulfilled merged ->
                 counter_of r = n + List.length plugins.
Proof.
  cbv zeta. revert plugins index accumulator n.
  apply (run_ind options (fun _ plugins _ n r =>
    forall merged, outcome_of r = Fulfilled merged ->
                   counter_of r = n + List.length plugins));
    unfold counter_of, outcome_of; cbn [fst snd]; intros; try discriminate.
  - simpl. lia.
  - rewrite (H4 _ H5). simpl. lia.
Qed.

(** C2.  When the positions before [k] have been processed and
    position [k] fails, in the backend's [init] or in the extractor, with
    error [e], the run rejects with [e] itself; no extractor after [k]
    runs and no backend is constructed for one; a rejection carries no
    accumulator. *)
Theorem fail_fast options k n e accumulator n1 t1 :
  k < List.length (opt_plugins options) ->
  processed options k n = (Fulfilled accumulator, n1, t1) ->
  fails_at options k n1 e ->
  let r := examineGitRepository options n in
  outcome_of r = Rejected e
  /\ (forall i b res, In (Extracted i b res) (trace_of r) -> i <= k)
  /\ List.length (constructed (trace_of r)) = S k.
Proof.
  intros Hk Hrun (Hsink & Hfail). cbv zeta.
  rewrite (examine_split options k n) by lia. unfold bind. rewrite Hrun.
  destruct (nth_error (opt_plugins options) k) as [plugin|] eqn:Hnth;
    [|apply nth_error_None in Hnth; lia].
  rewrite (skipn_nth_error _ _ _ Hnth), reduce_from_cons, reducer_step, Hsink.
  cbv zeta.
  assert (forall i b res, In (Extracted i b res) t1 -> i <= k) as Hbefore.
  { intros i b res Hin.
    pose proof (run_extracts options (firstn k (opt_plugins options)) 0
                  (opt_accumulator options) n) as Hx.
    cbv zeta in Hx. unfold processed in Hrun. rewrite Hrun in Hx.
    destruct (Hx i b res Hin) as ((_ & Hlt) & _).
    rewrite length_firstn in Hlt. lia. }
  assert (List.length (constructed t1) = k) as Hcount.
  { pose proof (run_constructs options (firstn k (opt_plugins options)) 0
                  (opt_accumulator options) n) as Hc.
    pose proof (run_fulfilled_counter options (firstn k (opt_plugins options)) 0
                  (opt_accumulator options) n) as Hn.
    cbv zeta in Hc, Hn. unfold processed in Hrun. rewrite Hrun in Hc, Hn.
    unfold counter_of, trace_of, outcome_of in Hc, Hn. cbn [fst snd] in Hc, Hn.
    destruct Hc as (_ & Hc & _). rewrite Hc, length_map, length_seq.
    rewrite (Hn accumulator eq_refl), length_firstn. lia. }
  destruct Hfail as [Hinit | (Hinit & plugin' & Hnth' & Hplugin)].
  - rewrite Hinit. unfold outcome_of, trace_of. cbn [fst snd].
    repeat split.
    + intros i b res Hin.
      apply in_app_or in Hin as [Hin|Hin]; [now apply (Hbefore i b res)|].
      apply in_app_or in Hin as [Hin|Hin]; [now apply In_announce in Hin|].
      simpl in Hin. destruct Hin as [Hin|[Hin|[]]]; discriminate.
    + rewrite !constructed_app, constructed_announce, length_app, Hcount.
      simpl. lia.
  - rewrite Hinit. injection Hnth' as <-.
    rewrite Hplugin. unfold outcome_of, trace_of. cbn [fst snd].
    repeat split.
    + intros i b res Hin.
      apply in_app_or in Hin as [Hin|Hin]; [now apply (Hbefore i b res)|].
      apply In_turn in Hin as (-> & _). lia.
    + rewrite !constructed_app, constructed_announce, length_app, Hcount.
      simpl. lia.
Qed.

(** ** Progress *)

Lemma last_map_seq (f : nat -> Z) start count d :
  0 < count -> last (map f (seq start count)) d = f (start + count - 1).
Proof.
  destruct count as [|count]; intros Hc; [lia|].
  rewrite seq_S, map_app. simpl map. rewrite last_last. f_equal. lia.
Qed.

(** C4, amended.  With a sink supplied, every extractor that runs is
    directly preceded by the sink being told [floor (i * 100 / n)] for its
    index [i], the construction of its backend and [init].  The values
    reported are those of the indices [0 .. reached - 1] the run reaches,
    in order, each between 0 and 99; a fulfilled run reaches all [n]
    extractors, so that its last report is [floor ((n - 1) * 100 / n)]. *)
Theorem progress_reports options sink n :
  opt_progress options = Some sink ->
  let r := examineGitRepository options n in
  let len := List.length (opt_plugins options) in
  (forall i b res, In (Extracted i b res) (trace_of r) ->
     exists t0 t2,
       trace_of r
       = t0 ++ [Progress (percentage i len); Constructed b; InitCalled b;
                Extracted i b res] ++ t2)
  /\ (exists reached,
        reached <= len
        /\ reported (trace_of r)
           = map (fun i => percentage i len) (seq 0 reached)
        /\ (forall merged, outcome_of r = Fulfilled merged -> reached = len))
  /\ (forall p, In p (reported (trace_of r)) -> (0 <= p <= 99)%Z)
  /\ (forall merged, outcome_of r = Fulfilled merged -> 0 < len ->
        last (reported (trace_of r)) 0%Z = percentage (len - 1) len).
Proof.
  intros Hs. cbv zeta. unfold examineGitRepository, reduce.
  pose proof (run_reports options sink (opt_plugins options) 0
                (opt_accumulator options) n Hs) as Hr.
  cbv zeta in Hr. destruct Hr as (reached & Hle & Hrep & Hful).
  split; [|split; [|split]].
  - intros i b res Hin.
    apply run_extracts in Hin as (_ & _ & _ & _ & t0 & t2 & Ht).
    exists t0, t2. rewrite Ht. unfold announce. rewrite Hs. reflexivity.
  - exists reached. auto.
  - intros p Hp. rewrite Hrep in Hp. apply in_map_iff in Hp as (i & <- & Hi).
    apply in_seq in Hi. apply percentage_range. lia.
  - intros merged Ho Hlen. rewrite Hrep, (Hful _ Ho).
    rewrite last_map_seq by lia. f_equal.
Qed.

(** ** Backends *)

Lemma invoked_app t t' : invoked (t ++ t') = invoked t ++ invoked t'.
Proof. apply flat_map_app. Qed.

Lemma invoked_announce options index : invoked (announce options index) = [].
Proof. unfold announce. now destruct (opt_progress options). Qed.

Lemma run_invokes options plugins index accumulator n :
  let r := reduce_from (reducer options) index plugins accumulator n in
  (exists reached, reached <= List.length plugins
                   /\ invoked (trace_of r) = seq index reached)
  /\ (forall merged, outcome_of r = Fulfilled merged ->
        invoked (trace_of r) = seq index (List.length plugins)).
Proof.
  cbv zeta. revert plugins index accumulator n.
  apply (run_ind options (fun index plugins _ _ r =>
    (exists reached, reached <= List.length plugins
                     /\ invoked (trace_of r) = seq index reached)
    /\ (forall merged, outcome_of r = Fulfilled merged ->
          invoked (trace_of r) = seq index (List.length plugins))));
    unfold trace_of, outcome_of; cbn [fst snd]; intros;
    rewrite ?invoked_app, ?invoked_announce; cbn [app].
  - split; [exists 0; split; auto|]. reflexivity.
  - split; [|discriminate]. exists 0. split; [lia|reflexivity].
  - split; [|discriminate]. exists 0. split; [lia|reflexivity].
  - split; [|discriminate]. exists 1. split; [simpl; lia|reflexivity].
  - split; [|discriminate]. exists 1. split; [simpl; lia|reflexivity].
  - destruct H4 as ((reached & Hle & Hr) & Hf). split.
    + exists (S reached). split; [simpl; lia|]. rewrite Hr. reflexivity.
    + intros merged0 Ho. rewrite (Hf _ Ho). reflexivity.
Qed.

Lemma In_invoked i t :
  In i (invoked t) <-> exists b res, In (Extracted i b res) t.
Proof.
  unfold invoked. rewrite in_flat_map. split.
  - intros (ev & Hin & Hi).
    destruct ev as [pc|b|b|j b res]; simpl in Hi; try contradiction.
    destruct Hi as [<-|[]]. eauto.
  - intros (b & res & Hin). exists (Extracted i b res). split; [exact Hin|].
    now left.
Qed.

Lemma bound_NoDup options stamps :
  NoDup stamps -> NoDup (map (bound options) stamps).
Proof.
  intros Hnd. apply (NoDup_map_inv instance). rewrite map_map.
  cbn [bound instance]. now rewrite map_id.
Qed.

(** C8.  For every extractor the orchestrator gets to (the extractors
    before it processed, the sink not throwing), it constructs a backend
    bound to the run's repository and reference, calls [init] on it right
    away, and, when that [init] is fulfilled, calls the extractor on that
    very instance next.  The instances of a run are pairwise distinct,
    [init] is called on each of them once, in the order of construction,
    every extractor invocation is on the instance constructed and
    initialised just before it, and no two extractors share an instance.
    In a fulfilled run every extractor of the list has been invoked, each
    on its own backend. *)
Theorem fresh_backend_per_extractor options n :
  let r := examineGitRepository options n in
  (forall k accumulator n1 t1 plugin,
     nth_error (opt_plugins options) k = Some plugin ->
     processed options k n = (Fulfilled accumulator, n1, t1) ->
     sink_throws options k = None ->
     let b := bound options (n + k) in
     exists t2,
       trace_of r
       = t1 ++ announce options k ++ [Constructed b; InitCalled b] ++ t2
       /\ match init b with
          | None => exists t3, t2 = Extracted k b (plugin b) :: t3
          | Some _ => t2 = []
          end)
  /\ constructed (trace_of r) = map (bound options) (seq n (counter_of r - n))
  /\ NoDup (constructed (trace_of r))
  /\ init_calls (trace_of r) = constructed (trace_of r)
  /\ (forall i b res, In (Extracted i b res) (trace_of r) ->
        b = bound options (n + i)
        /\ init b = None
        /\ exists t0 t2,
             trace_of r
             = t0 ++ [Constructed b; InitCalled b; Extracted i b res] ++ t2)
  /\ (forall i j b res res',
        In (Extracted i b res) (trace_of r) ->
        In (Extracted j b res') (trace_of r) -> i = j)
  /\ (forall merged, outcome_of r = Fulfilled merged ->
        List.length (constructed (trace_of r))
        = List.length (opt_plugins options)
        /\ forall k plugin, nth_error (opt_plugins options) k = Some plugin ->
             In (Extracted k (bound options (n + k))
                   (plugin (bound options (n + k))))
                (trace_of r)).
Proof.
  cbv zeta.
  pose proof (examine_split options) as Hsplit.
  unfold examineGitRepository, reduce in Hsplit |- *.
  assert (forall i b res,
            In (Extracted i b res)
               (trace_of (reduce_from (reducer options) 0 (opt_plugins options)
                            (opt_accumulator options) n)) ->
            b = bound options (n + i)
            /\ init b = None
            /\ (exists plugin, nth_error (opt_plugins options) i = Some plugin
                               /\ res = plugin b)
            /\ exists t0 t2,
                 trace_of (reduce_from (reducer options) 0 (opt_plugins options)
                             (opt_accumulator options) n)
                 = t0 ++ [Constructed b; InitCalled b; Extracted i b res] ++ t2)
    as Hextracted.
  { intros i b res Hin.
    apply run_extracts in Hin as (_ & Hb & Hinit & Hp & t0 & t2 & Ht).
    rewrite Nat.sub_0_r in Hb, Hp.
    split; [exact Hb|]. split; [exact Hinit|]. split; [exact Hp|].
    exists (t0 ++ announce options i), t2. rewrite Ht.
    now rewrite <- !app_assoc. }
  destruct (run_constructs options (opt_plugins options) 0
              (opt_accumulator options) n) as (_ & Hc & Hi).
  split; [|split; [exact Hc|split; [|split; [exact Hi|split; [|split]]]]].
  - intros k accumulator n1 t1 plugin Hnth Hrun Hsink.
    assert (k < List.length (opt_plugins options)) as Hk
      by (apply nth_error_Some; congruence).
    assert (n1 = n + k) as ->.
    { pose proof (run_fulfilled_counter options
                    (firstn k (opt_plugins options)) 0
                    (opt_accumulator options) n) as Hn.
      cbv zeta in Hn. unfold processed in Hrun. rewrite Hrun in Hn.
      unfold counter_of, outcome_of in Hn. cbn [fst snd] in Hn.
      rewrite (Hn accumulator eq_refl), length_firstn. lia. }
    rewrite (Hsplit k n) by lia. unfold bind. rewrite Hrun.
    rewrite (skipn_nth_error _ _ _ Hnth), reduce_from_cons, reducer_step, Hsink.
    cbv zeta. destruct (init (bound options (n + k))) as [e|].
    + exists []. unfold trace_of. cbn [snd]. split; [|reflexivity].
      now rewrite app_nil_r.
    + destruct (plugin (bound options (n + k))) as [e|result].
      * eexists. unfold trace_of. cbn [snd]. split.
        -- rewrite <- ?app_assoc. reflexivity.
        -- eexists. reflexivity.
      * destruct (baseMerge accumulator result) as [merged|].
        -- destruct (reduce_from (reducer options) (S k)
                       (skipn (S k) (opt_plugins options)) merged (S (n + k)))
             as [[o n''] t'].
           eexists. unfold trace_of. cbn [snd]. split.
           ++ rewrite <- ?app_assoc. reflexivity.
           ++ eexists. reflexivity.
        -- eexists. unfold trace_of. cbn [snd]. split.
           ++ rewrite <- ?app_assoc. reflexivity.
           ++ eexists. reflexivity.
  - rewrite Hc. apply bound_NoDup, seq_NoDup.
  - intros i b res Hin.
    destruct (Hextracted i b res Hin) as (Hb & Hinit & _ & Ht). auto.
  - intros i j b res res' Hin Hin'.
    destruct (Hextracted i b res Hin) as (Hb & _).
    destruct (Hextracted j b res' Hin') as (Hb' & _).
    rewrite Hb in Hb'. injection Hb' as Heq. lia.
  - intros merged Ho. split.
    + rewrite Hc, length_map, length_seq.
      rewrite (run_fulfilled_counter _ _ _ _ _ _ Ho). lia.
    + intros k plugin Hnth.
      destruct (run_invokes options (opt_plugins options) 0
                  (opt_accumulator options) n) as (_ & Hall).
      assert (In k (invoked (trace_of (reduce_from (reducer options) 0
                                         (opt_plugins options)
                                         (opt_accumulator options) n))))
        as Hin.
      { rewrite (Hall _ Ho). apply in_seq. split; [lia|].
        cbn [plus]. apply nth_error_Some. congruence. }
      apply In_invoked in Hin as (b & res & Hin).
      destruct (Hextracted k b res Hin) as (-> & _ & (plugin' & Hnth' & ->) & _).
      rewrite Hnth in Hnth'. injection Hnth' as <-. exact Hin.
Qed.

(** ** Determinism *)



(** ** The plugin selector *)

Lemma assign_present {A : Type} (k : string) (v : A) object :
  array_index k = None ->
  lookup k object = Some v -> assign k v object = object.
Proof.
  intros Hplain.
  induction object as [|[k' w] rest IH]; simpl; [discriminate|].
  rewrite (precedes_plain _ _ Hplain).
  destruct (String.eqb k k') eqn:Hk.
  - apply String.eqb_eq in Hk. now intros [= ->].
  - intros H. now rewrite IH.
Qed.

Lemma assign_absent {A : Type} (k : string) (v : A) object :
  array_index k = None ->
  lookup k object = None -> assign k v object = object ++ [(k, v)].
Proof.
  intros Hplain.
  induction object as [|[k' w] rest IH]; simpl; [reflexivity|].
  rewrite (precedes_plain _ _ Hplain).
  destruct (String.eqb k k'); [discriminate|].
  intros H. now rewrite IH.
Qed.

Lemma lookup_app {A : Type} (k : string) (xs ys : list (string * A)) :
  lookup k (xs ++ ys)
  = match lookup k xs with Some v => Some v | None => lookup k ys end.
Proof.
  induction xs as [|[k' w] rest IH]; simpl; [reflexivity|].
  now destruct (String.eqb k k').
Qed.

Lemma lookup_keys {A : Type} (k : string) (object : list (string * A)) :
  existsb (String.eqb k) (keys object)
  = match lookup k object with Some _ => true | None => false end.
Proof.
  induction object as [|[k' w] rest IH]; simpl; [reflexivity|].
  destruct (String.eqb k k'); simpl; auto.
Qed.

Section Picking.
Variable object : registry.
Hypothesis object_plain : forall k v,
  lookup k object = Some v -> refused k = false /\ array_index k = None.

Lemma flat_map_skip (F : string -> bool) key names :
  F key = false \/ own object key = [] ->
  flat_map (own object)
    (filter F (filter (fun other => negb (String.eqb other key)) names))
  = flat_map (own object) (filter F names).
Proof.
  intros Hkey. induction names as [|x rest IH]; simpl; [reflexivity|].
  destruct (String.eqb x key) eqn:Hx; simpl.
  - apply String.eqb_eq in Hx. subst x. rewrite IH.
    destruct Hkey as [-> | Hown]; [reflexivity|].
    destruct (F key); simpl; [now rewrite Hown|reflexivity].
  - destruct (F x); simpl; now rewrite IH.
Qed.

Lemma filter_unseen result key v names :
  filter (unseen (result ++ [(key, v)])) names
  = filter (unseen result)
      (filter (fun other => negb (String.eqb other key)) names).
Proof.
  induction names as [|x rest IH]; simpl; [reflexivity|].
  rewrite IH. unfold unseen at 1, keys. rewrite map_app, existsb_app. simpl.
  rewrite orb_false_r, negb_orb.
  destruct (String.eqb x key); simpl.
  - now rewrite andb_false_r.
  - rewrite andb_true_r. reflexivity.
Qed.

(** [_.pick] appends, in the order of the paths, the properties named
    for the first time. *)
Lemma basePick_first_occurrences paths : forall result,
  Forall (fun name => ordinary name = true) paths ->
  (forall k v, lookup k result = Some v -> lookup k object = Some v) ->
  basePick object paths result
  = Some (result
          ++ flat_map (own object) (filter (unseen result) (first_occurrences paths))).
Proof.
  induction paths as [|key rest IH]; intros result Hord Hsub.
  - simpl. now rewrite app_nil_r.
  - inversion Hord as [|? ? Hkey Hrest]; subst.
    unfold ordinary in Hkey. apply andb_true_iff in Hkey as [Hk Hinh].
    apply negb_true_iff in Hinh.
    cbn [basePick first_occurrences filter]. rewrite Hk. unfold get. rewrite Hinh.
    destruct (lookup key object) as [v|] eqn:Hobj.
    + destruct (object_plain _ _ Hobj) as [Hset Hplain].
      unfold baseSet. rewrite Hset.
      destruct (lookup key result) as [v'|] eqn:Hres.
      * rewrite (Hsub _ _ Hres) in Hobj. injection Hobj as ->.
        rewrite (assign_present _ _ _ Hplain Hres), (IH _ Hrest Hsub).
        unfold unseen at 2. rewrite lookup_keys, Hres. simpl.
        rewrite flat_map_skip; [reflexivity|]. left.
        unfold unseen. now rewrite lookup_keys, Hres.
      * rewrite (assign_absent _ _ _ Hplain Hres), IH; auto.
        -- unfold unseen at 2. rewrite lookup_keys, Hres. simpl.
           unfold own. rewrite Hobj. simpl.
           rewrite filter_unseen, <- app_assoc. reflexivity.
        -- intros k w. rewrite lookup_app.
           destruct (lookup k result) as [r|] eqn:Hkr;
             [intros [= <-]; now apply Hsub|].
           simpl. destruct (String.eqb k key) eqn:Hkk; [|discriminate].
           apply String.eqb_eq in Hkk. subst k. now intros [= <-].
    + rewrite (IH _ Hrest Hsub).
      assert (own object key = []) as Hown by (unfold own; now rewrite Hobj).
      destruct (unseen result key); simpl; rewrite ?Hown; simpl;
        rewrite flat_map_skip; auto.
Qed.
End Picking.

Lemma In_first_occurrences (x : string) names :
  In x (first_occurrences names) <-> In x names.
Proof.
  induction names as [|name rest IH]; simpl; [tauto|]. split.
  - intros [->|H]; [now left|]. apply filter_In in H as [H _]. right. tauto.
  - intros [->|H]; [now left|].
    destruct (String.eqb x name) eqn:Hx.
    + apply String.eqb_eq in Hx. now left.
    + right. apply filter_In. split; [tauto|]. now rewrite Hx.
Qed.

Lemma values_own_entries names :
  values
    (flat_map (own builtin_plugins) names)
  = flat_map registered names.
Proof.
  unfold values, registered. generalize builtin_plugins as object. intros object.
  induction names as [|k rest IH]; [reflexivity|].
  cbn [flat_map]. rewrite map_app, IH. unfold own.
  now destruct (lookup k object).
Qed.

Lemma filter_all {A : Type} (f : A -> bool) l :
  (forall x, f x = true) -> filter f l = l.
Proof.
  intros Hf. induction l as [|x l IH]; simpl; [reflexivity|].
  now rewrite Hf, IH.
Qed.

(** The names of the registry are neither array indices nor names that
    [baseSet] refuses. *)
Lemma builtin_plugins_plain k v :
  lookup k builtin_plugins = Some v ->
  refused k = false /\ array_index k = None.
Proof.
  intros H. apply lookup_In in H.
  assert (Forall (fun kv => refused (fst kv) = false
                            /\ array_index (fst kv) = None)
            builtin_plugins) as Hall.
  { repeat constructor. }
  rewrite Forall_forall in Hall. exact (Hall _ H).
Qed.

(** C3, amended.  An absent or empty whitelist selects every registered
    extractor, in the canonical order of the registry.  A whitelist of
    ordinary names selects the registered extractors it names, each once,
    in the order in which the whitelist first names them; names that are
    not registered are dropped. *)
Theorem selection_in_whitelist_order :
  filterPlugins None = Some (values builtin_plugins)
  /\ filterPlugins (Some []) = Some (values builtin_plugins)
  /\ forall name names,
       Forall (fun n => ordinary n = true) (name :: names) ->
       filterPlugins (Some (name :: names))
       = Some (flat_map registered (first_occurrences (name :: names)))
       /\ forall v, In v (flat_map registered (first_occurrences (name :: names)))
                    <-> exists n, In n (name :: names)
                                  /\ lookup n builtin_plugins = Some v.
Proof.
  split; [reflexivity|]. split; [reflexivity|].
  intros name names Hord. split.
  - unfold filterPlugins, pick. cbn [isEmpty negb].
    rewrite (basePick_first_occurrences _ builtin_plugins_plain);
      auto; [|discriminate].
    cbn [app option_map]. rewrite <- values_own_entries.
    now rewrite filter_all.
  - intros v. rewrite in_flat_map. split.
    + intros (n & Hn & Hv). exists n. split; [now apply In_first_occurrences|].
      unfold registered in Hv. destruct (lookup n builtin_plugins) as [w|]; [|destruct Hv].
      destruct Hv as [->|[]]. reflexivity.
    + intros (n & Hn & Hv). exists n. split; [now apply In_first_occurrences|].
      unfold registered. rewrite Hv. now left.
Qed.

Lemma basePick_unknown object paths : forall result,
  Forall (fun n => is_key n = true
                   /\ (get object n = None \/ refused n = true)) paths ->
  basePick object paths result = Some result.
Proof.
  induction paths as [|key rest IH]; intros result Hall; [reflexivity|].
  inversion Hall as [|? ? [Hk Hg] Hrest]; subst.
  simpl. rewrite Hk. destruct Hg as [-> | Hset]; [now apply IH|].
  unfold baseSet. rewrite Hset. destruct (get object key); now apply IH.
Qed.

(** X20.  When the whitelist is not empty and holds only property names
    that the registry object neither has nor inherits, or that [baseSet]
    refuses, no plugin is selected: a remote run is fulfilled with the
    empty object without a single event, so the sink is never invoked,
    and a local run emits no event either and, when it is fulfilled, is
    fulfilled with the empty object. *)
Theorem unknown_names_select_nothing env gitRepository options name names :
  user_whitelistPlugins options = Some (name :: names) ->
  Forall (fun n => is_key n = true
                   /\ (get builtin_plugins n = None \/ refused n = true))
         (name :: names) ->
  filterPlugins (user_whitelistPlugins options) = Some []
  /\ (forall n, remote env gitRepository options n = (Fulfilled [], n, []))
  /\ (forall p,
        trace_of (local env gitRepository options p) = []
        /\ forall merged,
             outcome_of (local env gitRepository options p) = Fulfilled merged ->
             merged = []).
Proof.
  intros Hwl Hall.
  assert (filterPlugins (user_whitelistPlugins options) = Some []) as Hsel.
  { rewrite Hwl. unfold filterPlugins, pick. cbn [isEmpty negb].
    now rewrite basePick_unknown. }
  assert (forall backend repo n,
            examine env backend repo options n = (Fulfilled [], n, [])) as Hrun.
  { intros backend repo n. unfold examine. now rewrite Hsel. }
  split; [exact Hsel|]. split; [intros n; apply Hrun|].
  intros p. unfold local.
  destruct (dirAsync env p) as [[e|temporaryDirectory] p1]; [split; [reflexivity|discriminate]|].
  destruct (clone env gitRepository temporaryDirectory p1) as [[e|] p2];
    [split; [reflexivity|discriminate]|].
  rewrite Hrun. unfold trace_of, outcome_of. cbn [fst snd].
  split; [reflexivity|]. now intros merged [= <-].
Qed.

(** ** The plugins *)

(** C7, amended.  The partial result of the architecture plugin always
    has its field: it holds a non-empty string, or [null], and it is
    [null] when neither document yields text.  The partial result of the
    changelog plugin always has its field too, and the field is the empty
    list when neither changelog has content.  The field is never left out
    to say that a value is absent. *)
Theorem absent_values_are_placeholders env b r :
  (architecture env b = inr r ->
   exists v, r = [("architecture", v)]
             /\ (v = VNull \/ exists s, v = VStr s /\ truthy s = true))
  /\ (forall a d first second,
        readFile b "ARCHITECTURE.md" = inr a ->
        readFile b "docs/ARCHITECTURE.md" = inr d ->
        convertHtmlToMD env a = inr first -> truthy (trim first) = false ->
        convertHtmlToMD env d = inr second -> truthy (trim second) = false ->
        architecture env b = inr [("architecture", VNull)])
  /\ (changelog env b = inr r -> exists v, r = [("changelog", v)])
  /\ (forall c markdown,
        readFile b ".versionbot/CHANGELOG.yml" = inr c ->
        isEmptyContents c = true ->
        readFile b "CHANGELOG.md" = inr markdown ->
        isEmptyContents markdown = true ->
        changelog env b = inr [("changelog", VArr [])]).
Proof.
  split; [|split; [|split]].
  - unfold architecture.
    destruct (readFile b "ARCHITECTURE.md") as [e|a]; [discriminate|].
    destruct (readFile b "docs/ARCHITECTURE.md") as [e|d]; [discriminate|].
    destruct (convertHtmlToMD env a) as [e|first]; [discriminate|].
    destruct (truthy (trim first)) eqn:Hfirst.
    + intros [= <-]. eexists. split; [reflexivity|]. right. eauto.
    + destruct (convertHtmlToMD env d) as [e|second]; [discriminate|].
      destruct (truthy (trim second)) eqn:Hsecond.
      * intros [= <-]. eexists. split; [reflexivity|]. right. eauto.
      * intros [= <-]. eexists. split; [reflexivity|]. now left.
  - intros a d first second Ha Hd Hfirst Hf Hsecond Hs. unfold architecture.
    now rewrite Ha, Hd, Hfirst, Hf, Hsecond, Hs.
  - unfold changelog.
    destruct (readFile b ".versionbot/CHANGELOG.yml") as [e|c]; [discriminate|].
    destruct (isEmptyContents c).
    + destruct (readFile b "CHANGELOG.md") as [e|markdown]; [discriminate|].
      intros [= <-]. eauto.
    + destruct (safeLoad env _) as [e|v]; [discriminate|].
      intros [= <-]. eauto.
  - intros c markdown Hyml Hempty Hmd _. unfold changelog.
    now rewrite Hyml, Hempty, Hmd.
Qed.

(** Whenever the machine-readable changelog has no content, the plugin
    answers with the empty list, whatever [CHANGELOG.md] holds: the inner
    test looks at [contents] again, not at [markdown]. *)
Lemma changelog_ignores_markdown env b c markdown :
  readFile b ".versionbot/CHANGELOG.yml" = inr c ->
  isEmptyContents c = true ->
  readFile b "CHANGELOG.md" = inr markdown ->
  changelog env b = inr [("changelog", VArr [])].
Proof.
  intros Hyml Hempty Hmd. unfold changelog. now rewrite Hyml, Hempty, Hmd.
Qed.

(** C6.  A remote run with whitelist [["changelog"]] on a repository
    without [.versionbot/CHANGELOG.yml] but with a [CHANGELOG.md] is
    fulfilled with the empty list for [changelog], not with anything
    derived from the markdown file. *)
Theorem changelog_fallback_is_lost :
  readFile (mkBackend (github sample_environment) "owner/project" "master" 0)
           ".versionbot/CHANGELOG.yml" = inr None
  /\ readFile (mkBackend (github sample_environment) "owner/project" "master" 0)
              "CHANGELOG.md" = inr (Some "# Changelog")
  /\ outcome_of
       (remote sample_environment "owner/project"
          (mkUserOptions "master" None (Some ["changelog"])) 0)
     = Fulfilled [("changelog", VArr [])].
Proof. repeat split. Qed.

(** ** Local runs and the disk *)

Lemma lookup_assign {A : Type} (k k' : string) (v : A) object :
  lookup k (assign k' v object)
  = if String.eqb k k' then Some v else lookup k object.
Proof.
  destruct (String.eqb k k') eqn:Hk.
  - apply String.eqb_eq in Hk. subst. apply lookup_assign_same.
  - apply lookup_assign_other. now apply String.eqb_neq.
Qed.

Lemma lookup_remove_same {A : Type} (k : string) (object : list (string * A)) :
  lookup k (remove k object) = None.
Proof.
  induction object as [|[k' w] rest IH]; simpl; [reflexivity|].
  destruct (String.eqb k k') eqn:Hk; simpl; [exact IH|]. now rewrite Hk.
Qed.

Lemma lookup_remove_None {A : Type} (k k' : string)
  (object : list (string * A)) :
  lookup k object = None -> lookup k (remove k' object) = None.
Proof.
  induction object as [|[k0 w] rest IH]; simpl; [reflexivity|].
  destruct (String.eqb k k0) eqn:Hk; [discriminate|]. intros H.
  destruct (String.eqb k' k0); simpl; [auto|]. rewrite Hk. auto.
Qed.

Lemma removed_stays_removed (k : string) names : forall d : list (string * tree),
  lookup k d = None ->
  lookup k (fold_left (fun d name => remove name d) names d) = None.
Proof.
  induction names as [|name rest IH]; intros d H; simpl; [exact H|].
  apply IH. now apply lookup_remove_None.
Qed.

(** The exit of the process removes every queued directory. *)
Lemma exit_removes (k : string) p :
  In k (removeObjects p) -> lookup k (disk (exit p)) = None.
Proof.
  unfold exit. simpl. generalize (disk p) as d.
  induction (removeObjects p) as [|name rest IH]; intros d Hin; [destruct Hin|].
  simpl. destruct Hin as [->|Hin].
  - apply removed_stays_removed, lookup_remove_same.
  - now apply IH.
Qed.

(** A run writes only to the directories its backends are bound to, and
    removes none. *)
Lemma effects_elsewhere (k : string) t : forall d,
  (forall b, In b (init_calls t) -> repository b <> k) ->
  lookup k (fold_left effect t d) = lookup k d.
Proof.
  induction t as [|ev t IH]; intros d Hb; [reflexivity|].
  simpl. rewrite IH.
  - destruct ev as [pc|b|b|i b r]; simpl; auto.
    destruct (lookup (repository b) d) as [tr|]; auto.
    rewrite lookup_assign.
    destruct (String.eqb k (repository b)) eqn:Hk; auto.
    apply String.eqb_eq in Hk. exfalso. apply (Hb b); [simpl; now left | auto].
  - intros b Hin. apply Hb. unfold init_calls in *. simpl.
    apply in_or_app. now right.
Qed.

Lemma effects_keep (k : string) t : forall d,
  lookup k d <> None -> lookup k (fold_left effect t d) <> None.
Proof.
  induction t as [|ev t IH]; intros d Hk; [exact Hk|].
  simpl. apply IH.
  destruct ev as [pc|b|b|i b r]; simpl; auto.
  destruct (lookup (repository b) d) as [tr|]; auto.
  rewrite lookup_assign. now destruct (String.eqb k (repository b)).
Qed.

Lemma tmpName_fresh env retries : forall p,
  match tmpName env retries p with
  | (inr name, p') =>
      lookup name (disk p) = None
      /\ disk p' = disk p /\ removeObjects p' = removeObjects p
  | (inl _, p') => disk p' = disk p /\ removeObjects p' = removeObjects p
  end.
Proof.
  induction retries as [|retries IH]; intros p; simpl.
  - destruct (lookup (tmp_name env (drawn p)) (disk p)) eqn:Hl; auto.
  - destruct (lookup (tmp_name env (drawn p)) (disk p)) eqn:Hl; [|auto].
    specialize (IH (mkProcess (disk p) (removeObjects p) (S (drawn p))
                              (objects p))).
    destruct (tmpName env retries _) as [[name|name] p']; exact IH.
Qed.

(** Every backend of an examination is an instance of the class, bound
    to the repository and the reference, the examination was given. *)
Lemma examine_constructed env backend repo options n b :
  In b (constructed (trace_of (examine env backend repo options n))) ->
  class b = backend /\ repository b = repo
  /\ reference b = user_reference options.
Proof.
  unfold examine. destruct (filterPlugins _) as [plugins|]; [|intros []].
  unfold examineGitRepository, reduce.
  match goal with
  | |- context [reduce_from (reducer ?o) 0 ?ps ?a n] =>
      destruct (run_constructs o ps 0 a n) as (_ & Hc & _)
  end.
  rewrite Hc. intros Hin. apply in_map_iff in Hin as (i & <- & _).
  repeat split.
Qed.

Lemma examine_init_calls env backend repo options n :
  init_calls (trace_of (examine env backend repo options n))
  = constructed (trace_of (examine env backend repo options n)).
Proof.
  unfold examine. destruct (filterPlugins _) as [plugins|]; [|reflexivity].
  unfold examineGitRepository, reduce.
  match goal with
  | |- context [reduce_from (reducer ?o) 0 ?ps ?a n] =>
      destruct (run_constructs o ps 0 a n) as (_ & _ & Hi)
  end.
  exact Hi.
Qed.

(** The checkouts of a run pile up in the directory its backends are
    bound to. *)
Lemma effects_checkouts options t : forall stamps d,
  init_calls t = map (bound options) stamps ->
  lookup (opt_repository options) (fold_left effect t d)
  = option_map
      (Nat.iter (List.length stamps)
         (class_checkout (opt_backend options) (opt_reference options)))
      (lookup (opt_repository options) d).
Proof.
  induction t as [|ev t IH]; intros stamps d Hcalls.
  - destruct stamps; [|discriminate]. simpl. now destruct (lookup _ d).
  - destruct ev as [pc|b|b|i b r]; simpl fold_left;
      try (apply IH; exact Hcalls).
    destruct stamps as [|stamp stamps]; [discriminate|].
    simpl in Hcalls. injection Hcalls as -> Hcalls.
    rewrite (IH stamps) by exact Hcalls. unfold effect, bound.
    cbn [repository class reference].
    destruct (lookup (opt_repository options) d) as [tr|] eqn:Hd.
    + rewrite lookup_assign_same. cbn [option_map List.length].
      now rewrite Nat.iter_succ_r.
    + now rewrite Hd.
Qed.

Lemma examine_checkouts env backend repo options n d :
  lookup repo (fold_left effect (trace_of (examine env backend repo options n)) d)
  = option_map
      (Nat.iter
         (List.length (init_calls (trace_of (examine env backend repo options n))))
         (class_checkout backend (user_reference options)))
      (lookup repo d).
Proof.
  unfold examine. destruct (filterPlugins _) as [plugins|].
  - unfold examineGitRepository, reduce.
    match goal with
    | |- context [reduce_from (reducer ?o) 0 ?ps ?a n] =>
        destruct (run_constructs o ps 0 a n) as (_ & Hc & Hi);
        pose proof (effects_checkouts o _ _ d (eq_trans Hi Hc)) as He
    end.
    cbn [opt_repository opt_backend opt_reference opt_plugins
         opt_accumulator] in *.
    rewrite He, Hi, Hc. now rewrite length_map.
  - simpl. now destruct (lookup repo d).
Qed.

(** C5.  What a local run, fulfilled or rejected, does to the disk.  It
    leaves the caller's repository as it was and binds no backend to it.
    The temporary directory, when one was created, is still on disk when
    the run settles, with its contents: the clone, checked out once by
    every backend that was initialised (nothing, when the clone failed).
    It is only queued for removal, and it is gone, contents included,
    once the process has exited. *)
Theorem local_run_isolation env gitRepository options p original :
  lookup gitRepository (disk p) = Some original ->
  let r := local env gitRepository options p in
  lookup gitRepository (disk (process_of r)) = Some original
  /\ (forall b, In b (constructed (trace_of r)) ->
                repository b <> gitRepository)
  /\ ((disk (process_of r) = disk p
       /\ removeObjects (process_of r) = removeObjects p)
      \/ exists temporary,
           removeObjects (process_of r) = temporary :: removeObjects p
           /\ lookup temporary (disk p) = None
           /\ lookup temporary (disk (process_of r))
              = Some (match git_clone env (Some original) with
                      | inl _ => []
                      | inr cloned =>
                          Nat.iter (List.length (init_calls (trace_of r)))
                            (class_checkout (fs env) (user_reference options))
                            cloned
                      end)
           /\ lookup temporary (disk (exit (process_of r))) = None).
Proof.
  intros Horig. cbv zeta. unfold local, dirAsync.
  pose proof (tmpName_fresh env 3 p) as Hfresh.
  destruct (tmpName env 3 p) as [[taken|temporary] p0].
  - destruct Hfresh as (Hdisk & Hqueue).
    unfold process_of, trace_of; cbn [fst snd].
    split; [|split].
    + now rewrite Hdisk.
    + intros b [].
    + left. auto.
  - destruct Hfresh as (Hnew & Hdisk & Hqueue).
    assert (temporary <> gitRepository) as Hne by (intros ->; congruence).
    assert (gitRepository <> temporary) as Hne' by auto.
    unfold clone. cbn [disk removeObjects drawn objects].
    rewrite (lookup_assign_other gitRepository temporary) by exact Hne'.
    rewrite Hdisk, Horig.
    destruct (git_clone env (Some original)) as [e|cloned];
      unfold process_of, trace_of; cbn [fst snd disk removeObjects].
    + split; [|split].
      * now rewrite lookup_assign_other.
      * intros b [].
      * right. exists temporary. rewrite Hqueue.
        split; [reflexivity|]. split; [exact Hnew|].
        split; [apply lookup_assign_same|].
        apply exit_removes. simpl. now left.
    + cbn [disk removeObjects drawn objects].
      pose proof (examine_constructed env (fs env) temporary options
                    (objects p0)) as Hb.
      pose proof (examine_init_calls env (fs env) temporary options
                    (objects p0)) as Hic.
      pose proof (examine_checkouts env (fs env) temporary options
                    (objects p0)
                    (assign temporary cloned (assign temporary [] (disk p))))
        as Hco.
      destruct (examine env (fs env) temporary options (objects p0))
        as [[o n] t].
      unfold trace_of in Hb, Hic, Hco.
      cbn [fst snd disk removeObjects] in *.
      split; [|split].
      * rewrite effects_elsewhere.
        -- now rewrite !lookup_assign_other.
        -- intros b Hin. rewrite Hic in Hin.
           destruct (Hb b Hin) as (_ & -> & _). exact Hne.
      * intros b Hin. destruct (Hb b Hin) as (_ & -> & _). exact Hne.
      * right. exists temporary. rewrite Hqueue.
        split; [reflexivity|]. split; [exact Hnew|]. split.
        -- rewrite Hco, lookup_assign_same. reflexivity.
        -- apply exit_removes. simpl. now left.
Qed.

(** What a local run does to the process: nothing but a rejection when
    [tmp] finds no free name; otherwise one fresh directory, created,
    queued for removal and still there, every other directory as it was,
    and every backend an [fs] backend bound to that directory. *)
Lemma local_shape env gitRepository options p :
  let r := local env gitRepository options p in
  (trace_of r = []
   /\ disk (process_of r) = disk p
   /\ removeObjects (process_of r) = removeObjects p
   /\ exists e, outcome_of r = Rejected e)
  \/ exists temporary,
       lookup temporary (disk p) = None
       /\ removeObjects (process_of r) = temporary :: removeObjects p
       /\ lookup temporary (disk (process_of r)) <> None
       /\ (forall k, k <> temporary ->
             lookup k (disk (process_of r)) = lookup k (disk p))
       /\ (forall b, In b (constructed (trace_of r)) ->
             class b = fs env /\ repository b = temporary).
Proof.
  cbv zeta. unfold local, dirAsync.
  pose proof (tmpName_fresh env 3 p) as Hfresh.
  destruct (tmpName env 3 p) as [[taken|temporary] p0].
  - destruct Hfresh as (Hdisk & Hqueue). left.
    unfold process_of, trace_of, outcome_of; cbn [fst snd].
    repeat split; auto. eexists. reflexivity.
  - destruct Hfresh as (Hnew & Hdisk & Hqueue). right. exists temporary.
    unfold clone. cbn [disk removeObjects drawn objects].
    destruct (git_clone env _) as [e|cloned];
      unfold process_of, trace_of; cbn [fst snd disk removeObjects].
    + rewrite Hqueue. repeat split; auto.
      * rewrite lookup_assign_same. discriminate.
      * intros k Hk. now rewrite lookup_assign_other, Hdisk.
      * destruct H.
      * destruct H.
    + cbn [disk removeObjects drawn objects].
      pose proof (examine_constructed env (fs env) temporary options
                    (objects p0)) as Hb.
      pose proof (examine_init_calls env (fs env) temporary options
                    (objects p0)) as Hic.
      destruct (examine env (fs env) temporary options (objects p0))
        as [[o n] t].
      unfold trace_of in Hb, Hic. cbn [fst snd disk removeObjects] in *.
      rewrite Hqueue. repeat split; auto.
      * apply effects_keep. rewrite lookup_assign_same. discriminate.
      * intros k Hk. rewrite effects_elsewhere.
        -- now rewrite !lookup_assign_other, Hdisk.
        -- intros b Hin. rewrite Hic in Hin.
           destruct (Hb b Hin) as (_ & -> & _). auto.
      * now destruct (Hb b H).
      * now destruct (Hb b H) as (_ & ? & _).
Qed.

(** ** Running a request twice *)










(** * The theorems at work on the sample environment *)


Lemma fail_fast_witness :
  fails_at late_failing_options 1 1 (mkError "BackendIOError" "connection reset")
  /\ outcome_of (examineGitRepository late_failing_options 0)
     = Rejected (mkError "BackendIOError" "connection reset")
  /\ (forall i b res,
        In (Extracted i b res)
           (trace_of (examineGitRepository late_failing_options 0)) -> i <= 1)
  /\ List.length
       (constructed (trace_of (examineGitRepository late_failing_options 0)))
     = 2.
Proof.
  assert (fails_at late_failing_options 1 1
            (mkError "BackendIOError" "connection reset")) as Hfail.
  { split; [reflexivity|]. right. split; [reflexivity|].
    exists plugin_failing. split; reflexivity. }
  split; [exact Hfail|].
  refine (fail_fast late_failing_options 1 0 _ _ 1
            (trace_of (processed late_failing_options 1 0)) _ _ Hfail).
  - simpl. lia.
  - reflexivity.
Defined.

Lemma selection_in_whitelist_order_witness :
  Forall (fun n => ordinary n = true) ["readme"; "nope"; "license"; "readme"]
  /\ filterPlugins (Some ["readme"; "nope"; "license"; "readme"])
     = Some [Module "readme"; Module "license"].
Proof.
  assert (Forall (fun n => ordinary n = true)
            ["readme"; "nope"; "license"; "readme"]) as Hord.
  { repeat constructor. }
  split; [exact Hord|].
  exact (proj1 (proj2 (proj2 selection_in_whitelist_order) _ _ Hord)).
Defined.

Lemma progress_reports_witness :
  opt_progress sample_options = Some silent
  /\ reported (trace_of (examineGitRepository sample_options 0)) = [0%Z; 50%Z]
  /\ last (reported (trace_of (examineGitRepository sample_options 0))) 0%Z
     = percentage 1 2.
Proof.
  split; [reflexivity|]. split; [reflexivity|].
  refine (proj2 (proj2 (proj2 (progress_reports sample_options silent 0 eq_refl)))
            _ eq_refl _).
  simpl. lia.
Defined.

Lemma local_run_isolation_witness :
  lookup "/home/user/project" (disk sample_process)
  = Some [("LICENSE", "Apache-2.0")]
  /\ lookup "/home/user/project"
       (disk (process_of
                (local sample_environment "/home/user/project"
                   (mkUserOptions "master" None (Some ["license"]))
                   sample_process)))
     = Some [("LICENSE", "Apache-2.0")].
Proof.
  split; [reflexivity|].
  exact (proj1 (local_run_isolation sample_environment "/home/user/project"
                  (mkUserOptions "master" None (Some ["license"]))
                  sample_process _ eq_refl)).
Defined.

Lemma absent_values_are_placeholders_witness :
  architecture sample_environment
    (mkBackend sample_class "owner/project" "master" 0)
  = inr [("architecture", VNull)]
  /\ exists v, [("architecture", VNull)] = [("architecture", v)]
               /\ (v = VNull \/ exists s, v = VStr s /\ truthy s = true).
Proof.
  split; [reflexivity|].
  exact (proj1 (absent_values_are_placeholders sample_environment
                  (mkBackend sample_class "owner/project" "master" 0)
                  [("architecture", VNull)]) eq_refl).
Defined.

Lemma fresh_backend_per_extractor_witness :
  nth_error (opt_plugins sample_options) 1 = Some plugin_b
  /\ sink_throws sample_options 1 = None
  /\ exists t2,
       trace_of (examineGitRepository sample_options 0)
       = trace_of (processed sample_options 1 0)
         ++ announce sample_options 1
         ++ [Constructed (bound sample_options 1);
             InitCalled (bound sample_options 1)] ++ t2
       /\ exists t3,
            t2 = Extracted 1 (bound sample_options 1)
                   (plugin_b (bound sample_options 1)) :: t3.
Proof.
  split; [reflexivity|]. split; [reflexivity|].
  exact (proj1 (fresh_backend_per_extractor sample_options 0) 1 _ 1
           (trace_of (processed sample_options 1 0)) plugin_b
           eq_refl eq_refl eq_refl).
Defined.


Lemma unknown_names_select_nothing_witness :
  Forall (fun n => is_key n = true
                   /\ (get builtin_plugins n = None \/ refused n = true))
         ["nope"; "constructor"]
  /\ remote sample_environment "owner/project"
       (mkUserOptions "master" (Some silent) (Some ["nope"; "constructor"])) 0
     = (Fulfilled [], 0, []).
Proof.
  assert (Forall (fun n => is_key n = true
                           /\ (get builtin_plugins n = None
                               \/ refused n = true))
            ["nope"; "constructor"]) as Hall.
  { constructor; [split; [reflexivity|left; reflexivity]|].
    constructor; [split; [reflexivity|right; reflexivity]|constructor]. }
  split; [exact Hall|].
  exact (proj1 (proj2 (unknown_names_select_nothing sample_environment
                         "owner/project"
                         (mkUserOptions "master" (Some silent)
                            (Some ["nope"; "constructor"]))
                         "nope" ["constructor"] eq_refl Hall)) 0).
Defined.

(** * Where the code departs from the specification *)

(** The selector follows the order of the whitelist, not the canonical
    order of the registry. *)
Lemma selection_order_counterexample :
  filterPlugins (Some ["readme"; "license"])
  = Some [Module "readme"; Module "license"]
  /\ canonical_selection (Some ["readme"; "license"])
     = [Module "license"; Module "readme"]
  /\ filterPlugins (Some ["readme"; "license"])
     <> Some (canonical_selection (Some ["readme"; "license"])).
Proof. repeat split. discriminate. Qed.

(** A run whose first extractor rejects reports 0 and nothing else,
    although [floor ((n - 1) * 100 / n)] is 50 for its two extractors. *)
Lemma progress_last_counterexample :
  opt_progress failing_options = Some silent
  /\ reported (trace_of (examineGitRepository failing_options 0)) = [0%Z]
  /\ last (reported (trace_of (examineGitRepository failing_options 0))) 0%Z
     <> percentage (List.length (opt_plugins failing_options) - 1)
                   (List.length (opt_plugins failing_options)).
Proof. repeat split. discriminate. Qed.

(** A local run that was fulfilled has left its temporary directory, and
    the clone in it, on disk. *)
Lemma temporary_directory_counterexample :
  outcome_of
    (local sample_environment "/home/user/project"
       (mkUserOptions "master" None (Some ["license"])) sample_process)
  = Fulfilled [("license", VBool true)]
  /\ lookup "/tmp/scrutinizer_a"
       (disk (process_of
                (local sample_environment "/home/user/project"
                   (mkUserOptions "master" None (Some ["license"]))
                   sample_process)))
     = Some [("LICENSE", "Apache-2.0")].
Proof. split; reflexivity. Qed.

(** Without architecture documents the architecture plugin sets its
    field to [null]. *)
Lemma null_placeholder_counterexample :
  readFile (mkBackend sample_class "owner/project" "master" 0) "ARCHITECTURE.md"
  = inr None
  /\ readFile (mkBackend sample_class "owner/project" "master" 0)
              "docs/ARCHITECTURE.md" = inr None
  /\ architecture sample_environment
       (mkBackend sample_class "owner/project" "master" 0)
     = inr [("architecture", VNull)].
Proof. repeat split. Qed.

(** C10.  The whitelist [["toString"]] holds no name of the registry,
    yet [_.pick], which tests [key in object], selects what the registry
    object inherits under that name: the selection is not empty, the sink
    is told 0, a backend is constructed and initialised, and the run
    rejects with a [TypeError] instead of being fulfilled with the empty
    object. *)
Theorem unregistered_name_is_selected :
  Forall (fun name => lookup name BUILTIN_PLUGINS = None) ["toString"]
  /\ filterPlugins (Some ["toString"]) = Some [Prototype "toString"]
  /\ reported
       (trace_of
          (remote sample_environment "owner/project"
             (mkUserOptions "master" (Some silent) (Some ["toString"])) 0))
     = [0%Z]
  /\ List.length
       (init_calls
          (trace_of
             (remote sample_environment "owner/project"
                (mkUserOptions "master" (Some silent) (Some ["toString"])) 0)))
     = 1
  /\ (exists e,
        outcome_of
          (remote sample_environment "owner/project"
             (mkUserOptions "master" (Some silent) (Some ["toString"])) 0)
        = Rejected e
        /\ error_name e = "TypeError")
  /\ outcome_of
       (remote sample_environment "owner/project"
          (mkUserOptions "master" (Some silent) (Some ["toString"])) 0)
     <> Fulfilled [].
Proof.
  split; [repeat constructor|]. split; [reflexivity|].
  split; [reflexivity|]. split; [reflexivity|]. split.
  - eexists. split; reflexivity.
  - discriminate.
Qed.

(** The two names [baseSet] refuses are dropped although the registry
    object inherits them. *)
Example refused_names_are_dropped :
  filterPlugins (Some ["constructor"; "license"; "__proto__"])
  = Some [Module "license"].
Proof. reflexivity. Qed.

(** The events of a run of the two sample plugins, in order. *)
Example sample_trace :
  trace_of (examineGitRepository sample_options 0)
  = [ Progress 0; Constructed (bound sample_options 0);
      InitCalled (bound sample_options 0);
      Extracted 0 (bound sample_options 0) (plugin_a (bound sample_options 0));
      Progress 50; Constructed (bound sample_options 1);
      InitCalled (bound sample_options 1);
      Extracted 1 (bound sample_options 1) (plugin_b (bound sample_options 1)) ].
Proof. reflexivity. Qed.

(** The merge rule on small objects. *)
Example merge_scalar_conflict :
  baseMerge [("a", VNum 1); ("b", VNum 2)] [("a", VStr "x")]
  = Some [("a", VStr "x"); ("b", VNum 2)].
Proof. reflexivity. Qed.

Example merge_shorter_array :
  baseMerge [("l", VArr [VNum 1; VNum 2; VNum 3])] [("l", VArr [VNum 9])]
  = Some [("l", VArr [VNum 9; VNum 2; VNum 3])].
Proof. reflexivity. Qed.

Example merge_null_overrides :
  baseMerge [("architecture", VStr "text")] [("architecture", VNull)]
  = Some [("architecture", VNull)].
Proof. reflexivity. Qed.

Example merge_undefined_is_skipped :
  baseMerge [("changelog", VArr [VNum 1])] [("changelog", VUndefined)]
  = Some [("changelog", VArr [VNum 1])].
Proof. reflexivity. Qed.

(** Array indices are enumerated first, in ascending order, wherever they
    are created; a source object that has one is outside what is modelled
    of [_.merge]. *)
Example assign_orders_array_indices :
  assign "0" (VNum 2) [("b", VNum 1)] = [("0", VNum 2); ("b", VNum 1)]
  /\ assign "10" (VNum 3) [("2", VNum 2); ("b", VNum 1)]
     = [("2", VNum 2); ("10", VNum 3); ("b", VNum 1)]
  /\ assign "01" (VNum 3) [("2", VNum 2); ("b", VNum 1)]
     = [("2", VNum 2); ("b", VNum 1); ("01", VNum 3)]
  /\ baseMerge [("b", VNum 1)] [("0", VNum 2)] = None.
Proof. repeat split. Qed.

(** * Further properties of the engine *)

(** ** What [_.merge] keeps *)

Lemma mergeProps_fields (f : option value -> value -> option value) source :
  forall object merged,
  mergeProps f source object = Some merged ->
  forall k, lookup k merged <> None
            <-> lookup k object <> None \/ lookup k source <> None.
Proof.
  induction source as [|[key srcValue] rest IH]; intros object merged Hm k.
  - simpl in Hm. injection Hm as <-. simpl. tauto.
  - simpl in Hm. destruct (exotic key) eqn:Hplain; [discriminate|].
    destruct (f (lookup key object) srcValue) as [v|]; [|discriminate].
    rewrite (IH _ _ Hm k), lookup_assign. simpl.
    destruct (String.eqb k key); [|tauto].
    split; intros _; [right|left]; discriminate.
Qed.

Lemma assign_keys_extend {A : Type} (k : string) (v : A) object :
  array_index k = None ->
  exists rest, keys (assign k v object) = keys object ++ rest.
Proof.
  intros Hplain. induction object as [|[k' w] tl IH]; simpl.
  - now exists [k].
  - rewrite (precedes_plain _ _ Hplain). destruct (String.eqb k k'); simpl.
    + exists []. now rewrite app_nil_r.
    + destruct IH as (rest & ->). now exists rest.
Qed.

Lemma mergeProps_keys_extend (f : option value -> value -> option value)
  source : forall object merged,
  mergeProps f source object = Some merged ->
  exists rest, keys merged = keys object ++ rest.
Proof.
  induction source as [|[key srcValue] tl IH]; intros object merged Hm.
  - simpl in Hm. injection Hm as <-. exists []. now rewrite app_nil_r.
  - simpl in Hm. destruct (exotic key) eqn:Hplain; [discriminate|].
    destruct (f (lookup key object) srcValue) as [v|]; [|discriminate].
    destruct (IH _ _ Hm) as (rest & ->).
    destruct (assign_keys_extend key v object
                (proj2 (exotic_false _ Hplain))) as (rest' & ->).
    exists (rest' ++ rest). now rewrite app_assoc.
Qed.

Lemma mergeProps_ordinary_keys (f : option value -> value -> option value)
  source : forall object merged,
  mergeProps f source object = Some merged ->
  forall k, In k (keys source) -> exotic k = false.
Proof.
  induction source as [|[key srcValue] tl IH]; intros object merged Hm k Hk.
  - destruct Hk.
  - simpl in Hm. destruct (exotic key) eqn:Hinh; [discriminate|].
    destruct (f (lookup key object) srcValue) as [v|]; [|discriminate].
    destruct Hk as [<-|Hk]; [exact Hinh|]. eapply IH; eauto.
Qed.

Lemma mergeElems_again (f : option value -> value -> option value) source :
  Forall (fun s => forall old v, f old s = Some v -> f (Some v) s = Some v)
         source ->
  forall object merged,
  mergeElems f source object = Some merged ->
  mergeElems f source merged = Some merged.
Proof.
  induction 1 as [|x rest Hx _ IH]; intros object merged Hm.
  - reflexivity.
  - simpl in Hm.
    destruct (f (hd_error object) x) as [v|] eqn:Hv; [|discriminate].
    destruct (mergeElems f rest (tl object)) as [vs|] eqn:Hvs; [|discriminate].
    injection Hm as <-. simpl. now rewrite (Hx _ _ Hv), (IH _ _ Hvs).
Qed.

Lemma mergeProps_settled (f : option value -> value -> option value) source :
  forall merged,
  (forall k s, In (k, s) source ->
     exotic k = false
     /\ exists v, lookup k merged = Some v /\ f (Some v) s = Some v) ->
  mergeProps f source merged = Some merged.
Proof.
  induction source as [|[key srcValue] tl IH]; intros merged Hall.
  - reflexivity.
  - destruct (Hall key srcValue (or_introl eq_refl)) as (Hinh & v & Hv & Hf).
    simpl. rewrite Hinh, Hv, Hf.
    rewrite (assign_present _ _ _ (proj2 (exotic_false _ Hinh)) Hv).
    apply IH. intros k s Hin. apply Hall. now right.
Qed.

Lemma mergeValue_again : forall s,
  well_formed s = true ->
  forall old v, mergeValue old s = Some v -> mergeValue (Some v) s = Some v.
Proof.
  induction s as [ | | b | n | s | elems IH | props IH ] using value_nested_ind;
    intros Hwf old v Hm.
  - simpl in Hm. now injection Hm as <-.
  - simpl in Hm. now injection Hm as <-.
  - simpl in Hm. now injection Hm as <-.
  - simpl in Hm. now injection Hm as <-.
  - simpl in Hm. now injection Hm as <-.
  - apply well_formed_VArr in Hwf.
    change (mergeValue old (VArr elems))
      with (if array_like old then None
            else option_map VArr (mergeElems mergeValue elems (sequence old)))
      in Hm.
    destruct (array_like old); [discriminate|].
    destruct (mergeElems mergeValue elems (sequence old)) as [merged|] eqn:He;
      [|discriminate].
    injection Hm as <-.
    change (option_map VArr (mergeElems mergeValue elems merged)
            = Some (VArr merged)).
    erewrite mergeElems_again; [reflexivity| |exact He].
    rewrite Forall_forall in IH, Hwf |- *. intros x Hx. now apply IH; auto.
  - pose proof Hwf as Hwf0. apply well_formed_VObj in Hwf as [Hd Hwf].
    assert (option_map VObj (mergeProps mergeValue props (mapping old)) = Some v)
      as Hm'.
    { destruct old as [[ | | | | | |]|]; simpl in Hm |- *;
        solve [exact Hm | discriminate]. }
    destruct (mergeProps mergeValue props (mapping old)) as [merged|] eqn:He;
      [|discriminate].
    injection Hm' as <-.
    change (option_map VObj (mergeProps mergeValue props merged)
            = Some (VObj merged)).
    rewrite mergeProps_settled; [reflexivity|].
    destruct (mergeProps_keywise _ _ _ _ Hd He) as (_ & Hset).
    intros k s Hin. split.
    + eapply mergeProps_ordinary_keys; [exact He|].
      unfold keys. apply in_map_iff. now exists (k, s).
    + assert (lookup k props = Some s) as Hl.
      { clear - Hd Hin. induction props as [|[k' s'] tl IHp]; [destruct Hin|].
        simpl in Hd. apply andb_true_iff in Hd as [Hfresh Hd].
        apply negb_true_iff, existsb_eqb_false in Hfresh. simpl.
        destruct Hin as [[= -> ->]|Hin]; [now rewrite String.eqb_refl|].
        destruct (String.eqb k k') eqn:Hk; [|auto].
        apply String.eqb_eq in Hk. subst k'. exfalso. apply Hfresh.
        unfold keys. apply in_map_iff. now exists (k, s). }
      destruct (Hset k s Hl) as (w & Hw & Hf). exists w. split; [exact Hw|].
      rewrite Forall_forall in IH, Hwf.
      apply (IH (k, s) Hin (Hwf (k, s) Hin) _ _ Hf).
Qed.

(** X1.  Merging the same partial result a second time changes nothing. *)
Theorem merge_idempotent accumulator result merged :
  well_formed (VObj result) = true ->
  baseMerge accumulator result = Some merged ->
  baseMerge merged result = Some merged.
Proof.
  intros Hwf Hm.
  assert (mergeValue (Some (VObj accumulator)) (VObj result)
          = Some (VObj merged)) as Hv.
  { simpl. unfold baseMerge in Hm. now rewrite Hm. }
  apply (mergeValue_again _ Hwf) in Hv. simpl in Hv. unfold baseMerge.
  destruct (mergeProps mergeValue result merged) as [m|]; [|discriminate].
  now injection Hv as ->.
Qed.

Lemma mergeElems_fresh (f : option value -> value -> option value) source :
  Forall (fun s => f None s = Some s) source ->
  mergeElems f source [] = Some source.
Proof.
  induction 1 as [|x rest Hx _ IH]; [reflexivity|].
  simpl. simpl in IH. now rewrite Hx, IH.
Qed.

Lemma mergeProps_fresh (f : option value -> value -> option value) source :
  forall done,
  distinct (keys source) = true ->
  (forall k, In k (keys source) -> lookup k done = None) ->
  (forall k s, In (k, s) source -> exotic k = false /\ f None s = Some s) ->
  mergeProps f source done = Some (done ++ source).
Proof.
  induction source as [|[key srcValue] tl IH]; intros done Hd Hnew Hall.
  - simpl. now rewrite app_nil_r.
  - simpl in Hd. apply andb_true_iff in Hd as [Hfresh Hd].
    apply negb_true_iff, existsb_eqb_false in Hfresh.
    destruct (Hall key srcValue (or_introl eq_refl)) as (Hinh & Hf).
    simpl. rewrite Hinh, (Hnew key) by (simpl; now left). rewrite Hf.
    rewrite assign_absent;
      [|exact (proj2 (exotic_false _ Hinh))|apply Hnew; simpl; now left].
    rewrite IH; auto.
    + now rewrite <- app_assoc.
    + intros k Hk. rewrite lookup_app, (Hnew k) by (simpl; now right).
      simpl. destruct (String.eqb k key) eqn:Hkk; [|reflexivity].
      apply String.eqb_eq in Hkk. subst. contradiction.
    + intros k s Hin. apply Hall. now right.
Qed.

(** Merged onto nothing, a value of the modelled fragment comes back as
    it is. *)
Lemma mergeValue_fresh : forall s,
  well_formed s = true -> modelled None s = true ->
  mergeValue None s = Some s.
Proof.
  induction s as [ | | b | n | s | elems IH | props IH ] using value_nested_ind;
    intros Hwf Hm; try reflexivity.
  - apply well_formed_VArr in Hwf.
    change (option_map VArr (mergeElems mergeValue elems []) = Some (VArr elems)).
    rewrite mergeElems_fresh; [reflexivity|].
    simpl in Hm. clear - IH Hwf Hm.
    induction elems as [|x rest IHl]; constructor.
    + apply andb_true_iff in Hm as [Hx _].
      inversion IH; inversion Hwf; subst. auto.
    + apply andb_true_iff in Hm as [_ Hrest].
      inversion IH; inversion Hwf; subst. auto.
  - apply well_formed_VObj in Hwf as [Hd Hwf].
    change (option_map VObj (mergeProps mergeValue props []) = Some (VObj props)).
    rewrite mergeProps_fresh; auto.
    simpl in Hm. clear - IH Hwf Hm.
    induction props as [|[k x] rest IHl]; intros k' s' Hin; [destruct Hin|].
    apply andb_true_iff in Hm as [Hm Hrest].
    apply andb_true_iff in Hm as [Hinh Hx]. apply negb_true_iff in Hinh.
    inversion IH as [|? ? Hx' IH']; inversion Hwf as [|? ? Hwx Hwf']; subst.
    destruct Hin as [[= <- <-]|Hin]; [|now apply IHl].
    split; [exact Hinh|]. simpl in Hx', Hwx. auto.
Qed.

(** X2.  A run of a single extractor, from the empty accumulator, is
    fulfilled with exactly the partial result of that extractor. *)
Theorem single_extractor_result options plugin n r :
  opt_plugins options = [plugin] ->
  opt_accumulator options = [] ->
  sink_throws options 0 = None ->
  init (bound options n) = None ->
  plugin (bound options n) = inr r ->
  well_formed (VObj r) = true ->
  modelled None (VObj r) = true ->
  outcome_of (examineGitRepository options n) = Fulfilled r.
Proof.
  intros Hp Ha Hsink Hinit Hplugin Hwf Hm.
  unfold examineGitRepository, reduce. rewrite Hp, Ha.
  rewrite reduce_from_cons, reducer_step, Hsink. cbv zeta.
  rewrite Hinit, Hplugin.
  pose proof (mergeValue_fresh _ Hwf Hm) as Hfresh. simpl in Hfresh.
  unfold baseMerge.
  destruct (mergeProps mergeValue r []) as [m|]; [|discriminate].
  injection Hfresh as ->. reflexivity.
Qed.

(** ** The fields of the report *)

Lemma In_partial_results_app t t' r :
  In r (partial_results (t ++ t'))
  <-> In r (partial_results t) \/ In r (partial_results t').
Proof. rewrite partial_results_app. apply in_app_iff. Qed.

Lemma reduce_from_fields options plugins :
  forall index initial n accumulator n' t,
  reduce_from (reducer options) index plugins initial n
  = (Fulfilled accumulator, n', t) ->
  (forall k, lookup k accumulator <> None
             <-> lookup k initial <> None
                 \/ exists r, In r (partial_results t) /\ lookup k r <> None)
  /\ exists rest, keys accumulator = keys initial ++ rest.
Proof.
  induction plugins as [|plugin rest IH];
    intros index initial n accumulator n' t Hrun.
  - simpl in Hrun. injection Hrun as <- <- <-. split.
    + intros k. split; [tauto|]. intros [H|(r & [] & _)]. exact H.
    + exists []. now rewrite app_nil_r.
  - revert Hrun. first_turn options initial plugin index n; try discriminate.
    destruct (reduce_from (reducer options) (S index) rest merged (S n))
      as [[o n''] t'] eqn:Hrest.
    intros [= -> -> <-].
    destruct (IH _ _ _ _ _ _ Hrest) as (Hfields & more & Hkeys). split.
    + intros k. rewrite (Hfields k).
      rewrite (mergeProps_fields _ _ _ _ Hmerge k). split.
      * intros [[H|H]|(r & Hr & Hk)]; auto.
        -- right. exists result. split; [|exact H].
           apply In_partial_results_app. left.
           rewrite partial_results_turn. now left.
        -- right. exists r. split; [|exact Hk].
           apply In_partial_results_app. now right.
      * intros [H|(r & Hr & Hk)]; auto.
        apply In_partial_results_app in Hr as [Hr|Hr].
        -- rewrite partial_results_turn in Hr. destruct Hr as [<-|[]]. auto.
        -- right. eauto.
    + destruct (mergeProps_keys_extend _ _ _ _ Hmerge) as (first & Hfirst).
      exists (first ++ more). now rewrite Hkeys, Hfirst, app_assoc.
Qed.

(** X3.  The report of a fulfilled run has exactly the fields of the
    initial accumulator and of the partial results: no field is lost and
    none appears that no extractor returned. *)
Theorem report_fields options n accumulator :
  outcome_of (examineGitRepository options n) = Fulfilled accumulator ->
  forall k,
    lookup k accumulator <> None
    <-> lookup k (opt_accumulator options) <> None
        \/ exists r,
             In r (partial_results (trace_of (examineGitRepository options n)))
             /\ lookup k r <> None.
Proof.
  unfold examineGitRepository, reduce, outcome_of, trace_of.
  destruct (reduce_from (reducer options) 0 (opt_plugins options)
              (opt_accumulator options) n) as [[o n'] t] eqn:Hrun.
  cbn [fst snd]. intros ->. now apply (reduce_from_fields _ _ _ _ _ _ _ _ Hrun).
Qed.

(** X4.  Fields keep their place: the fields the accumulator has after
    the first [i] extractors come first, in the same order, in the report
    of the fulfilled run. *)
Theorem report_field_order options i n partial n1 t1 accumulator :
  i <= List.length (opt_plugins options) ->
  processed options i n = (Fulfilled partial, n1, t1) ->
  outcome_of (examineGitRepository options n) = Fulfilled accumulator ->
  exists rest, keys accumulator = keys partial ++ rest.
Proof.
  intros Hi Hrun. rewrite (examine_split options i n Hi). unfold bind.
  rewrite Hrun.
  destruct (reduce_from (reducer options) i (skipn i (opt_plugins options))
              partial n1) as [[o n'] t] eqn:Hrest.
  unfold outcome_of. cbn [fst]. intros ->.
  now apply (reduce_from_fields _ _ _ _ _ _ _ _ Hrest).
Qed.

Lemma deep_merge_scalar old s v :
  is_scalar s = true -> deep_merge old s v -> v = s.
Proof. intros Hs H. inversion H; subst; try reflexivity; discriminate. Qed.

Lemma deep_merge_of_last_scalar initial results accumulator :
  deep_merge_of initial results accumulator ->
  forall before r after k s,
    results = before ++ r :: after ->
    lookup k r = Some s -> is_scalar s = true ->
    (forall r', In r' after -> lookup k r' = None) ->
    lookup k accumulator = Some s.
Proof.
  induction 1 as [|results accumulator result merged _ IH Hm];
    intros before r after k s Heq Hk Hs Hafter.
  - destruct before; discriminate.
  - assert ((forall k', lookup k' result = None ->
                         lookup k' merged = lookup k' accumulator)
            /\ (forall k' s', lookup k' result = Some s' ->
                   exists v, lookup k' merged = Some v
                             /\ deep_merge (lookup k' accumulator) s' v))
      as [Hkeep Hset].
    { inversion Hm as [? ? Hsc| |? ? ? Hnot Hk1 Hk2|]; subst;
        [discriminate Hsc|]. split; assumption. }
    destruct (rev after) as [|last rafter] eqn:Hrev.
    + assert (after = []) as -> by (apply (f_equal (@rev _)) in Hrev;
        now rewrite rev_involutive in Hrev).
      apply app_inj_tail in Heq as [-> ->].
      destruct (Hset k s Hk) as (v & Hv & Hdm).
      now rewrite (deep_merge_scalar _ _ _ Hs Hdm) in Hv.
    + assert (after = rev rafter ++ [last]) as Hafter'.
      { apply (f_equal (@rev _)) in Hrev. rewrite rev_involutive in Hrev.
        exact Hrev. }
      subst after.
      change (before ++ r :: rev rafter ++ [last])
        with (before ++ (r :: rev rafter) ++ [last]) in Heq.
      rewrite app_assoc in Heq. apply app_inj_tail in Heq as [-> ->].
      rewrite Hkeep by (apply Hafter, in_or_app; right; now left).
      apply (IH before r (rev rafter) k s); auto.
      intros r' Hr'. apply Hafter, in_or_app. now left.
Qed.

(** X5.  The last extractor to return a field decides it when what it
    returns there is a scalar: the report of a fulfilled run holds that
    scalar. *)
Theorem later_scalar_wins options n accumulator before r after k s :
  (forall plugin b r', In plugin (opt_plugins options) -> plugin b = inr r' ->
                       well_formed (VObj r') = true) ->
  outcome_of (examineGitRepository options n) = Fulfilled accumulator ->
  partial_results (trace_of (examineGitRepository options n))
  = before ++ r :: after ->
  lookup k r = Some s -> is_scalar s = true ->
  (forall r', In r' after -> lookup k r' = None) ->
  lookup k accumulator = Some s.
Proof.
  intros Hwf. unfold examineGitRepository, reduce, outcome_of, trace_of.
  destruct (reduce_from (reducer options) 0 (opt_plugins options)
              (opt_accumulator options) n) as [[o n'] t] eqn:Hrun.
  cbn [fst snd]. intros -> Hres Hk Hs Hafter.
  apply (reduce_from_accumulates _ _ _ _ _ _ _ _ Hwf) in Hrun as (Hdm & _).
  eapply deep_merge_of_last_scalar; eauto.
Qed.

(** ** Progress, once more *)

Lemma percentage_monotone i j len :
  i <= j -> (percentage i len <= percentage j len)%Z.
Proof.
  intros Hij. unfold percentage. destruct len as [|len].
  - simpl. now rewrite !Z.div_0_r.
  - apply Z.div_le_mono; lia.
Qed.

(** X6.  Progress never goes backwards: of two percentages told to the
    sink, the later one is at least the earlier one. *)
Theorem progress_never_decreases options sink n i j p q :
  opt_progress options = Some sink ->
  i <= j ->
  nth_error (reported (trace_of (examineGitRepository options n))) i = Some p ->
  nth_error (reported (trace_of (examineGitRepository options n))) j = Some q ->
  (p <= q)%Z.
Proof.
  intros Hs Hij. unfold examineGitRepository, reduce.
  destruct (run_reports options sink (opt_plugins options) 0
              (opt_accumulator options) n Hs) as (reached & _ & -> & _).
  intros Hp Hq.
  assert (forall x v,
            nth_error (map (fun i => percentage i (List.length (opt_plugins options)))
                           (seq 0 reached)) x = Some v ->
            v = percentage x (List.length (opt_plugins options))) as Hnth.
  { intros x v H. rewrite nth_error_map, nth_error_seq in H.
    destruct (Nat.ltb x reached); [|discriminate]. now injection H as <-. }
  rewrite (Hnth _ _ Hp), (Hnth _ _ Hq). now apply percentage_monotone.
Qed.

Lemma reported_without_sink options index :
  opt_progress options = None -> announce options index = [].
Proof. unfold announce. now intros ->. Qed.

Lemma reduce_from_silent options sink plugins :
  opt_progress options = Some sink ->
  (forall p, sink p = None) ->
  forall index accumulator n,
    outcome_of (reduce_from (reducer options) index plugins accumulator n)
    = outcome_of (reduce_from (reducer (without_progress options)) index
                    plugins accumulator n)
    /\ counter_of (reduce_from (reducer options) index plugins accumulator n)
       = counter_of (reduce_from (reducer (without_progress options)) index
                       plugins accumulator n)
    /\ reported (trace_of (reduce_from (reducer (without_progress options))
                             index plugins accumulator n)) = [].
Proof.
  intros Hs Hquiet. induction plugins as [|plugin rest IH];
    intros index accumulator n.
  - repeat split.
  - rewrite !reduce_from_cons, !reducer_step.
    assert (sink_throws options index = None) as ->
      by (unfold sink_throws; rewrite Hs; apply Hquiet).
    assert (sink_throws (without_progress options) index = None) as ->
      by reflexivity.
    assert (announce (without_progress options) index = []) as ->
      by reflexivity.
    change (bound (without_progress options) n) with (bound options n).
    cbv zeta. destruct (init (bound options n)); [repeat split|].
    destruct (plugin (bound options n)) as [e|result]; [repeat split|].
    destruct (baseMerge accumulator result) as [merged|]; [|repeat split].
    specialize (IH (S index) merged (S n)).
    unfold outcome_of, counter_of, trace_of in *.
    destruct (reduce_from (reducer options) (S index) rest merged (S n))
      as [[o1 n1] t1].
    destruct (reduce_from (reducer (without_progress options)) (S index) rest
                merged (S n)) as [[o2 n2] t2].
    cbn [fst snd] in *. destruct IH as (Ho & Hn & Hr).
    split; [exact Ho|]. split; [exact Hn|].
    rewrite reported_app. now rewrite Hr.
Qed.

(** X7.  Reporting progress does not change the examination: with a sink
    that returns normally the run settles as it does without a sink, with
    the same merged result or the same error and as many backends, and
    without a sink nothing is ever reported. *)
Theorem progress_does_not_interfere options sink n :
  opt_progress options = Some sink ->
  (forall p, sink p = None) ->
  outcome_of (examineGitRepository options n)
  = outcome_of (examineGitRepository (without_progress options) n)
  /\ counter_of (examineGitRepository options n)
     = counter_of (examineGitRepository (without_progress options) n)
  /\ reported (trace_of (examineGitRepository (without_progress options) n))
     = [].
Proof.
  intros Hs Hquiet. unfold examineGitRepository, reduce.
  exact (reduce_from_silent options sink (opt_plugins options) Hs Hquiet 0
           (opt_accumulator options) n).
Qed.

(** X8.  A sink that throws ends the run at once: the run rejects with
    what the sink threw, and neither a backend is constructed nor an
    extractor called for that position or a later one. *)
Theorem throwing_sink_aborts options k n e accumulator n1 t1 :
  k < List.length (opt_plugins options) ->
  processed options k n = (Fulfilled accumulator, n1, t1) ->
  sink_throws options k = Some e ->
  let r := examineGitRepository options n in
  outcome_of r = Rejected e
  /\ List.length (constructed (trace_of r)) = k
  /\ (forall i b res, In (Extracted i b res) (trace_of r) -> i < k).
Proof.
  intros Hk Hrun Hsink. cbv zeta.
  rewrite (examine_split options k n) by lia. unfold bind. rewrite Hrun.
  destruct (nth_error (opt_plugins options) k) as [plugin|] eqn:Hnth;
    [|apply nth_error_None in Hnth; lia].
  rewrite (skipn_nth_error _ _ _ Hnth), reduce_from_cons, reducer_step, Hsink.
  unfold outcome_of, trace_of. cbn [fst snd].
  pose proof (run_extracts options (firstn k (opt_plugins options)) 0
                (opt_accumulator options) n) as Hx.
  pose proof (run_constructs options (firstn k (opt_plugins options)) 0
                (opt_accumulator options) n) as Hc.
  pose proof (run_fulfilled_counter options (firstn k (opt_plugins options)) 0
                (opt_accumulator options) n) as Hn.
  cbv zeta in Hx, Hc, Hn. unfold processed in Hrun. rewrite Hrun in Hx, Hc, Hn.
  unfold counter_of, trace_of, outcome_of in Hx, Hc, Hn.
  cbn [fst snd] in Hx, Hc, Hn.
  split; [reflexivity|]. split.
  - rewrite constructed_app, constructed_announce, app_nil_r.
    destruct Hc as (_ & -> & _). rewrite length_map, length_seq.
    rewrite (Hn accumulator eq_refl), length_firstn. lia.
  - intros i b res Hin. apply in_app_or in Hin as [Hin|Hin].
    + destruct (Hx i b res Hin) as ((_ & Hlt) & _).
      rewrite length_firstn in Hlt. lia.
    + now apply In_announce in Hin.
Qed.

(** ** Which extractors run, and where errors come from *)

(** X9.  The extractors run strictly in the order of the plugin list,
    each at most once and without gaps; in a fulfilled run every one of
    them has run, on as many backends. *)
Theorem extractors_run_in_order options n :
  let r := examineGitRepository options n in
  (exists reached, reached <= List.length (opt_plugins options)
                   /\ invoked (trace_of r) = seq 0 reached)
  /\ (forall merged, outcome_of r = Fulfilled merged ->
        invoked (trace_of r) = seq 0 (List.length (opt_plugins options))
        /\ List.length (constructed (trace_of r))
           = List.length (opt_plugins options)).
Proof.
  cbv zeta. unfold examineGitRepository, reduce.
  destruct (run_invokes options (opt_plugins options) 0
              (opt_accumulator options) n) as (Hreached & Hall).
  split; [exact Hreached|]. intros merged Ho. split; [eauto|].
  destruct (run_constructs options (opt_plugins options) 0
              (opt_accumulator options) n) as (_ & -> & _).
  rewrite length_map, length_seq.
  rewrite (run_fulfilled_counter _ _ _ _ _ _ Ho). lia.
Qed.



(** ** The selector, once more *)

Lemma lookup_builtin_plugins name :
  lookup name builtin_plugins
  = option_map Module (lookup name BUILTIN_PLUGINS).
Proof.
  unfold builtin_plugins. generalize BUILTIN_PLUGINS as table.
  induction table as [|[k m] rest IH]; simpl; [reflexivity|].
  now destruct (String.eqb name k).
Qed.

(** Every name of the registry is a property name of its own. *)
Lemma registered_is_ordinary name path :
  lookup name BUILTIN_PLUGINS = Some path -> ordinary name = true.
Proof.
  unfold BUILTIN_PLUGINS, lookup. intros H.
  repeat match type of H with
         | (if String.eqb ?a ?b then _ else _) = _ =>
             destruct (String.eqb_spec a b) as [->|_]; [reflexivity|]
         end.
  discriminate.
Qed.

(** X11.  A whitelist that names one registered plugin selects that
    plugin and nothing else. *)
Theorem single_name_selects_its_plugin name path :
  lookup name BUILTIN_PLUGINS = Some path ->
  filterPlugins (Some [name]) = Some [Module path].
Proof.
  intros Hreg. pose proof (registered_is_ordinary _ _ Hreg) as Hord.
  unfold ordinary in Hord. apply andb_true_iff in Hord as [Hkey _].
  assert (lookup name builtin_plugins = Some (Module path)) as Hown
    by (now rewrite lookup_builtin_plugins, Hreg).
  destruct (builtin_plugins_plain _ _ Hown) as [Hset _].
  unfold filterPlugins, pick. cbn [isEmpty negb basePick]. rewrite Hkey.
  unfold get, baseSet. rewrite Hown, Hset. reflexivity.
Qed.

Lemma first_occurrences_snoc names name :
  first_occurrences (names ++ [name])
  = first_occurrences names
    ++ (if existsb (String.eqb name) names then [] else [name]).
Proof.
  induction names as [|x rest IH]; [reflexivity|].
  cbn [app first_occurrences existsb]. rewrite IH, filter_app. f_equal.
  f_equal. destruct (String.eqb name x) eqn:Hx; cbn [orb].
  - destruct (existsb (String.eqb name) rest); [reflexivity|].
    cbn [filter]. now rewrite Hx.
  - destruct (existsb (String.eqb name) rest); [reflexivity|].
    cbn [filter]. now rewrite Hx.
Qed.

(** X12.  Naming a plugin a second time does not select it twice: the
    selection is what it was without the repetition. *)
Theorem repeated_name_selects_once first names name :
  Forall (fun n => ordinary n = true) (first :: names) ->
  In name (first :: names) ->
  filterPlugins (Some ((first :: names) ++ [name]))
  = filterPlugins (Some (first :: names)).
Proof.
  intros Hord Hin.
  assert (ordinary name = true) as Hname
    by (rewrite Forall_forall in Hord; auto).
  assert (Forall (fun n => ordinary n = true) ((first :: names) ++ [name]))
    as Hord'.
  { apply Forall_app. split; [exact Hord|]. now constructor. }
  unfold filterPlugins, pick. cbn [isEmpty negb app].
  change (first :: names ++ [name]) with ((first :: names) ++ [name]).
  rewrite !(basePick_first_occurrences _ builtin_plugins_plain);
    auto; try discriminate.
  rewrite first_occurrences_snoc.
  assert (existsb (String.eqb name) (first :: names) = true) as ->.
  { apply existsb_exists. exists name. split; [exact Hin|apply String.eqb_refl]. }
  now rewrite app_nil_r.
Qed.

Lemma inherited_is_unregistered_key name :
  inherited name = true ->
  is_key name = true /\ lookup name builtin_plugins = None.
Proof.
  unfold inherited. intros H. apply existsb_exists in H as (x & Hx & Heq).
  apply String.eqb_eq in Heq. subst x.
  unfold OBJECT_PROTOTYPE in Hx. simpl in Hx.
  repeat (destruct Hx as [<-|Hx]; [split; reflexivity|]). destruct Hx.
Qed.

(** X13.  A whitelist entry that names a member of [Object.prototype]
    other than the ones [baseSet] refuses ([constructor] and [__proto__])
    is not dropped: it selects that member, and the run it starts can
    only reject, whatever the backend and the sink do. *)
Theorem inherited_name_never_fulfils env gitRepository options name n :
  inherited name = true ->
  refused name = false ->
  user_whitelistPlugins options = Some [name] ->
  filterPlugins (user_whitelistPlugins options) = Some [Prototype name]
  /\ exists e, outcome_of (remote env gitRepository options n) = Rejected e.
Proof.
  intros Hinh Hset Hwl.
  destruct (inherited_is_unregistered_key _ Hinh) as (Hkey & Hnone).
  assert (filterPlugins (user_whitelistPlugins options)
          = Some [Prototype name]) as Hsel.
  { rewrite Hwl. unfold filterPlugins, pick. cbn [isEmpty negb basePick].
    rewrite Hkey. unfold get, baseSet. now rewrite Hnone, Hinh, Hset. }
  split; [exact Hsel|].
  unfold remote, examine. rewrite Hsel. unfold examineGitRepository, reduce.
  cbn [opt_plugins opt_accumulator map].
  rewrite reduce_from_cons, reducer_step.
  destruct (sink_throws _ 0) as [e|]; [now exists e|].
  cbv zeta. destruct (init _) as [e|]; [now exists e|].
  cbn [call]. eexists. reflexivity.
Qed.

(** ** The plugins, once more *)

Lemma trimStart_head s :
  match trimStart s with
  | EmptyString => True
  | String c _ => is_space c = false
  end.
Proof.
  induction s as [|c rest IH]; simpl; [exact I|].
  destruct (is_space c) eqn:Hc; [exact IH|exact Hc].
Qed.

Lemma trimEnd_cons c rest :
  trimEnd (String c rest)
  = match trimEnd rest with
    | EmptyString => if is_space c then EmptyString else String c EmptyString
    | kept => String c kept
    end.
Proof. reflexivity. Qed.

Lemma trimEnd_idempotent s : trimEnd (trimEnd s) = trimEnd s.
Proof.
  induction s as [|c rest IH]; [reflexivity|].
  rewrite trimEnd_cons. destruct (trimEnd rest) as [|d kept] eqn:Hrest.
  - destruct (is_space c) eqn:Hc; [reflexivity|].
    rewrite trimEnd_cons. simpl. now rewrite Hc.
  - rewrite trimEnd_cons, IH. reflexivity.
Qed.

Lemma trimStart_trimEnd s :
  match s with
  | EmptyString => True
  | String c _ => is_space c = false
  end ->
  trimStart (trimEnd s) = trimEnd s.
Proof.
  destruct s as [|c rest]; [reflexivity|]. intros Hc. rewrite trimEnd_cons.
  destruct (trimEnd rest) as [|d kept].
  - rewrite Hc. simpl. now rewrite Hc.
  - simpl. now rewrite Hc.
Qed.

Lemma trim_idempotent s : trim (trim s) = trim s.
Proof.
  unfold trim. rewrite (trimStart_trimEnd (trimStart s) (trimStart_head s)).
  apply trimEnd_idempotent.
Qed.

(** X14.  The text the architecture plugin returns is trimmed and not
    empty: trimming it again gives the same text. *)
Theorem architecture_text_is_trimmed env b r s :
  architecture env b = inr r ->
  lookup "architecture" r = Some (VStr s) ->
  trim s = s /\ truthy s = true.
Proof.
  unfold architecture.
  destruct (readFile b "ARCHITECTURE.md") as [e|a]; [discriminate|].
  destruct (readFile b "docs/ARCHITECTURE.md") as [e|d]; [discriminate|].
  destruct (convertHtmlToMD env a) as [e|first]; [discriminate|].
  destruct (truthy (trim first)) eqn:Hfirst.
  - intros [= <-] [= <-]. split; [apply trim_idempotent|exact Hfirst].
  - destruct (convertHtmlToMD env d) as [e|second]; [discriminate|].
    destruct (truthy (trim second)) eqn:Hsecond.
    + intros [= <-] [= <-]. split; [apply trim_idempotent|exact Hsecond].
    + intros [= <-]. discriminate.
Qed.

(** X15.  What the changelog plugin returns is either the empty list,
    when the machine-readable changelog has no content, or what
    [yaml.safeLoad] makes of that changelog: the text of [CHANGELOG.md]
    never reaches the result.  The file is read all the same, and a
    failure to read it rejects the plugin. *)
Theorem changelog_result env b :
  (forall r, changelog env b = inr r ->
     (exists c, readFile b ".versionbot/CHANGELOG.yml" = inr c
                /\ isEmptyContents c = true
                /\ r = [("changelog", VArr [])])
     \/ (exists s v, readFile b ".versionbot/CHANGELOG.yml" = inr (Some s)
                     /\ truthy s = true
                     /\ safeLoad env s = inr v
                     /\ r = [("changelog", v)]))
  /\ (forall c e, readFile b ".versionbot/CHANGELOG.yml" = inr c ->
        isEmptyContents c = true ->
        readFile b "CHANGELOG.md" = inl e ->
        changelog env b = inl e).
Proof.
  split.
  - intros r. unfold changelog.
    destruct (readFile b ".versionbot/CHANGELOG.yml") as [e|c]; [discriminate|].
    destruct (isEmptyContents c) eqn:Hempty.
    + destruct (readFile b "CHANGELOG.md") as [e|markdown]; [discriminate|].
      intros [= <-]. left. exists c. auto.
    + destruct c as [s|]; [|discriminate Hempty].
      destruct (safeLoad env s) as [e|v] eqn:Hload; [discriminate|].
      intros [= <-]. right. exists s, v. repeat split; auto.
      simpl in Hempty. now apply negb_false_iff in Hempty.
  - intros c e Hyml Hempty Hmd. unfold changelog.
    now rewrite Hyml, Hempty, Hmd.
Qed.

(** ** Local runs, once more *)

(** X16.  When the repository cannot be cloned, the run rejects with the
    error of the clone and nothing is examined: no backend, no sink, no
    extractor. The temporary directory was created all the same, empty,
    and stays queued for removal. *)
Theorem failed_clone_runs_nothing env gitRepository options p original e :
  lookup gitRepository (disk p) = Some original ->
  git_clone env (Some original) = inl e ->
  lookup (tmp_name env (drawn p)) (disk p) = None ->
  let r := local env gitRepository options p in
  outcome_of r = Rejected e
  /\ trace_of r = []
  /\ lookup (tmp_name env (drawn p)) (disk (process_of r)) = Some []
  /\ In (tmp_name env (drawn p)) (removeObjects (process_of r)).
Proof.
  intros Horig Hclone Hfree. cbv zeta. unfold local, dirAsync.
  cbn [tmpName]. rewrite Hfree. unfold clone.
  cbn [disk removeObjects drawn objects].
  assert (gitRepository <> tmp_name env (drawn p)) as Hne
    by (intros Heq; rewrite Heq in Horig; congruence).
  rewrite lookup_assign_other, Horig, Hclone by exact Hne.
  unfold outcome_of, trace_of, process_of. cbn [fst snd disk removeObjects].
  repeat split.
  - apply lookup_assign_same.
  - now left.
Qed.

(** X17.  Every directory that was on disk before a local run is there,
    unchanged, after it, whether the run is fulfilled or rejected. *)
Theorem local_leaves_the_disk_alone env gitRepository options p k t :
  lookup k (disk p) = Some t ->
  lookup k (disk (process_of (local env gitRepository options p))) = Some t.
Proof.
  intros Hk.
  destruct (local_shape env gitRepository options p)
    as [(_ & -> & _) | (temporary & Hnew & _ & _ & Hframe & _)];
    [exact Hk|].
  rewrite Hframe; [exact Hk|]. intros ->. congruence.
Qed.

Lemma list_neq_cons {A : Type} (x : A) l : l <> x :: l.
Proof.
  induction l as [|y l IH]; [discriminate|]. intros [= -> H]. now apply IH.
Qed.

(** X18.  Two local runs, one after the other, never share their
    temporary directory. *)
Theorem local_runs_use_distinct_directories
  env repo1 options1 repo2 options2 p d1 d2 :
  let p1 := process_of (local env repo1 options1 p) in
  let p2 := process_of (local env repo2 options2 p1) in
  removeObjects p1 = d1 :: removeObjects p ->
  removeObjects p2 = d2 :: removeObjects p1 ->
  d1 <> d2.
Proof.
  cbv zeta. intros H1 H2.
  destruct (local_shape env repo1 options1 p)
    as [(_ & _ & Hq & _) | (t1 & _ & Hq1 & Hthere & _)].
  { rewrite Hq in H1. now apply list_neq_cons in H1. }
  destruct (local_shape env repo2 options2
              (process_of (local env repo1 options1 p)))
    as [(_ & _ & Hq & _) | (t2 & Hnew & Hq2 & _)].
  { rewrite Hq in H2. now apply list_neq_cons in H2. }
  rewrite Hq1 in H1. injection H1 as ->.
  rewrite Hq2 in H2. injection H2 as ->.
  intros ->. contradiction.
Qed.

Lemma lookup_remove_other {A : Type} (k k' : string)
  (object : list (string * A)) :
  k <> k' -> lookup k (remove k' object) = lookup k object.
Proof.
  intros Hne. induction object as [|[k0 w] rest IH]; simpl; [reflexivity|].
  destruct (String.eqb k' k0) eqn:Hk'.
  - apply String.eqb_eq in Hk'. subst k0.
    apply String.eqb_neq in Hne. now rewrite Hne.
  - simpl. now rewrite IH.
Qed.

Lemma exit_keeps (k : string) p :
  ~ In k (removeObjects p) -> lookup k (disk (exit p)) = lookup k (disk p).
Proof.
  unfold exit. simpl. generalize (disk p) as d.
  induction (removeObjects p) as [|name rest IH]; intros d Hnot; [reflexivity|].
  simpl. rewrite IH by (intros H; apply Hnot; now right).
  apply lookup_remove_other. intros ->. apply Hnot. now left.
Qed.

(** X19.  The cleanup at the exit of the process takes away what [tmp]
    had queued and nothing else: a directory that was on disk before a
    local run, and was not queued then, is still there, unchanged, after
    the run and the exit, and nothing is left queued. *)
Theorem cleanup_spares_other_directories env gitRepository options p k t :
  lookup k (disk p) = Some t ->
  ~ In k (removeObjects p) ->
  let p' := exit (process_of (local env gitRepository options p)) in
  lookup k (disk p') = Some t /\ removeObjects p' = [].
Proof.
  intros Hk Hnot. cbv zeta. split; [|reflexivity].
  destruct (local_shape env gitRepository options p)
    as [(_ & Hdisk & Hq & _) | (temporary & Hnew & Hq & _ & Hframe & _)].
  - rewrite exit_keeps by (now rewrite Hq). now rewrite Hdisk.
  - assert (k <> temporary) as Hne by (intros ->; congruence).
    rewrite exit_keeps.
    + now rewrite Hframe.
    + rewrite Hq. intros [Heq|Hin]; [now apply Hne|contradiction].
Qed.

(** * The further properties at work on the samples *)

Lemma report_fields_witness :
  outcome_of (examineGitRepository sample_options 0)
  = Fulfilled [ ("name", VStr "b"); ("tags", VArr [VNum 9; VNum 2; VNum 3]);
                ("meta", VObj [("x", VNum 1); ("y", VNull)]) ]
  /\ (lookup "tags"
        [ ("name", VStr "b"); ("tags", VArr [VNum 9; VNum 2; VNum 3]);
          ("meta", VObj [("x", VNum 1); ("y", VNull)]) ] <> None
      <-> lookup "tags" (opt_accumulator sample_options) <> None
          \/ exists r,
               In r (partial_results
                       (trace_of (examineGitRepository sample_options 0)))
               /\ lookup "tags" r <> None).
Proof.
  split; [reflexivity|].
  exact (report_fields sample_options 0 _ eq_refl "tags").
Defined.

Lemma report_field_order_witness :
  processed sample_options 1 0
  = (Fulfilled [ ("name", VStr "a"); ("tags", VArr [VNum 1; VNum 2; VNum 3]);
                 ("meta", VObj [("x", VNum 1)]) ],
     1, trace_of (processed sample_options 1 0))
  /\ exists rest,
       keys [ ("name", VStr "b"); ("tags", VArr [VNum 9; VNum 2; VNum 3]);
              ("meta", VObj [("x", VNum 1); ("y", VNull)]) ]
       = keys [ ("name", VStr "a"); ("tags", VArr [VNum 1; VNum 2; VNum 3]);
                ("meta", VObj [("x", VNum 1)]) ] ++ rest.
Proof.
  split; [reflexivity|].
  refine (report_field_order sample_options 1 0 _ 1
            (trace_of (processed sample_options 1 0)) _ _ eq_refl eq_refl).
  simpl. lia.
Defined.

Lemma later_scalar_wins_witness :
  partial_results (trace_of (examineGitRepository sample_options 0))
  = [ [ ("name", VStr "a"); ("tags", VArr [VNum 1; VNum 2; VNum 3]);
        ("meta", VObj [("x", VNum 1)]) ] ]
    ++ [ ("name", VStr "b"); ("tags", VArr [VNum 9]);
         ("meta", VObj [("y", VNull)]) ] :: []
  /\ lookup "name"
       [ ("name", VStr "b"); ("tags", VArr [VNum 9; VNum 2; VNum 3]);
         ("meta", VObj [("x", VNum 1); ("y", VNull)]) ]
     = Some (VStr "b").
Proof.
  split; [reflexivity|].
  refine (later_scalar_wins sample_options 0 _ _ _ [] "name" (VStr "b")
            _ eq_refl eq_refl eq_refl eq_refl _).
  - intros plugin b r [<-|[<-|[]]] [= <-]; reflexivity.
  - intros r' [].
Defined.

Lemma merge_idempotent_witness :
  baseMerge [("name", VStr "a"); ("tags", VArr [VNum 1; VNum 2])]
            [("tags", VArr [VNum 9]); ("meta", VObj [("y", VNull)])]
  = Some [ ("name", VStr "a"); ("tags", VArr [VNum 9; VNum 2]);
           ("meta", VObj [("y", VNull)]) ]
  /\ baseMerge [ ("name", VStr "a"); ("tags", VArr [VNum 9; VNum 2]);
                 ("meta", VObj [("y", VNull)]) ]
               [("tags", VArr [VNum 9]); ("meta", VObj [("y", VNull)])]
     = Some [ ("name", VStr "a"); ("tags", VArr [VNum 9; VNum 2]);
              ("meta", VObj [("y", VNull)]) ].
Proof.
  split; [reflexivity|].
  exact (merge_idempotent
           [("name", VStr "a"); ("tags", VArr [VNum 1; VNum 2])]
           [("tags", VArr [VNum 9]); ("meta", VObj [("y", VNull)])]
           _ eq_refl eq_refl).
Defined.

Lemma single_extractor_result_witness :
  plugin_a (bound single_options 0)
  = inr [ ("name", VStr "a"); ("tags", VArr [VNum 1; VNum 2; VNum 3]);
          ("meta", VObj [("x", VNum 1)]) ]
  /\ outcome_of (examineGitRepository single_options 0)
     = Fulfilled [ ("name", VStr "a"); ("tags", VArr [VNum 1; VNum 2; VNum 3]);
                   ("meta", VObj [("x", VNum 1)]) ].
Proof.
  split; [reflexivity|].
  exact (single_extractor_result single_options plugin_a 0 _
           eq_refl eq_refl eq_refl eq_refl eq_refl eq_refl eq_refl).
Defined.

Lemma progress_never_decreases_witness :
  nth_error (reported (trace_of (examineGitRepository sample_options 0))) 0
  = Some 0%Z
  /\ nth_error (reported (trace_of (examineGitRepository sample_options 0))) 1
     = Some 50%Z
  /\ (0 <= 50)%Z.
Proof.
  split; [reflexivity|]. split; [reflexivity|].
  refine (progress_never_decreases sample_options silent 0 0 1 0%Z 50%Z
            eq_refl _ eq_refl eq_refl).
  lia.
Defined.

Lemma progress_does_not_interfere_witness :
  (forall p, silent p = None)
  /\ outcome_of (examineGitRepository sample_options 0)
     = outcome_of (examineGitRepository (without_progress sample_options) 0).
Proof.
  split; [reflexivity|].
  exact (proj1 (progress_does_not_interfere sample_options silent 0 eq_refl
                  (fun _ => eq_refl))).
Defined.

Lemma throwing_sink_aborts_witness :
  sink_throws interrupted_options 1 = Some (mkError "Error" "stop")
  /\ outcome_of (examineGitRepository interrupted_options 0)
     = Rejected (mkError "Error" "stop")
  /\ List.length (constructed (trace_of (examineGitRepository interrupted_options 0)))
     = 1.
Proof.
  split; [reflexivity|].
  assert (1 < List.length (opt_plugins interrupted_options)) as Hk
    by (simpl; lia).
  pose proof (throwing_sink_aborts interrupted_options 1 0
                (mkError "Error" "stop") _ 1
                (trace_of (processed interrupted_options 1 0))
                Hk eq_refl eq_refl) as H.
  cbv zeta in H. split; [exact (proj1 H)|exact (proj1 (proj2 H))].
Defined.


Lemma single_name_selects_its_plugin_witness :
  lookup "logoBrandMark" BUILTIN_PLUGINS = Some "logo-brandmark"
  /\ filterPlugins (Some ["logoBrandMark"]) = Some [Module "logo-brandmark"].
Proof.
  split; [reflexivity|].
  exact (single_name_selects_its_plugin "logoBrandMark" "logo-brandmark"
           eq_refl).
Defined.

Lemma repeated_name_selects_once_witness :
  In "docs" ["readme"; "docs"]
  /\ filterPlugins (Some (["readme"; "docs"] ++ ["docs"]))
     = filterPlugins (Some ["readme"; "docs"]).
Proof.
  assert (In "docs" ["readme"; "docs"]) as Hin by (right; now left).
  split; [exact Hin|].
  refine (repeated_name_selects_once "readme" ["docs"] "docs" _ Hin).
  repeat constructor.
Defined.

Lemma inherited_name_never_fulfils_witness :
  inherited "toString" = true
  /\ refused "toString" = false
  /\ filterPlugins (Some ["toString"]) = Some [Prototype "toString"]
  /\ exists e,
       outcome_of
         (remote sample_environment "owner/project"
            (mkUserOptions "master" None (Some ["toString"])) 0)
       = Rejected e.
Proof.
  split; [reflexivity|]. split; [reflexivity|].
  exact (inherited_name_never_fulfils sample_environment "owner/project"
           (mkUserOptions "master" None (Some ["toString"])) "toString" 0
           eq_refl eq_refl eq_refl).
Defined.

Lemma architecture_text_is_trimmed_witness :
  architecture documented_environment
    (mkBackend documented_class "owner/project" "master" 0)
  = inr [("architecture", VStr "# Design")]
  /\ trim "# Design" = "# Design".
Proof.
  split; [reflexivity|].
  exact (proj1 (architecture_text_is_trimmed documented_environment
                  (mkBackend documented_class "owner/project" "master" 0)
                  _ "# Design" eq_refl eq_refl)).
Defined.

Lemma failed_clone_runs_nothing_witness :
  git_clone uncloneable_environment (Some [("LICENSE", "Apache-2.0")])
  = inl (mkError "CloneError" "not a repository")
  /\ outcome_of
       (local uncloneable_environment "/home/user/project"
          (mkUserOptions "master" (Some silent) None) sample_process)
     = Rejected (mkError "CloneError" "not a repository")
  /\ trace_of
       (local uncloneable_environment "/home/user/project"
          (mkUserOptions "master" (Some silent) None) sample_process)
     = [].
Proof.
  split; [reflexivity|].
  pose proof (failed_clone_runs_nothing uncloneable_environment
                "/home/user/project"
                (mkUserOptions "master" (Some silent) None) sample_process
                [("LICENSE", "Apache-2.0")]
                (mkError "CloneError" "not a repository")
                eq_refl eq_refl eq_refl) as H.
  cbv zeta in H. split; [exact (proj1 H)|exact (proj1 (proj2 H))].
Defined.

Lemma local_leaves_the_disk_alone_witness :
  lookup "/home/user/project" (disk sample_process)
  = Some [("LICENSE", "Apache-2.0")]
  /\ lookup "/home/user/project"
       (disk (process_of
                (local sample_environment "/home/user/project"
                   (mkUserOptions "master" None None) sample_process)))
     = Some [("LICENSE", "Apache-2.0")].
Proof.
  split; [reflexivity|].
  exact (local_leaves_the_disk_alone sample_environment "/home/user/project"
           (mkUserOptions "master" None None) sample_process
           "/home/user/project" _ eq_refl).
Defined.

Lemma local_runs_use_distinct_directories_witness :
  removeObjects
    (process_of (local sample_environment "/home/user/project"
                   (mkUserOptions "master" None (Some ["license"]))
                   sample_process))
  = ["/tmp/scrutinizer_a"]
  /\ "/tmp/scrutinizer_a" <> "/tmp/scrutinizer_b".
Proof.
  split; [reflexivity|].
  exact (local_runs_use_distinct_directories sample_environment
           "/home/user/project"
           (mkUserOptions "master" None (Some ["license"]))
           "/home/user/project"
           (mkUserOptions "master" None (Some ["readme"]))
           sample_process "/tmp/scrutinizer_a" "/tmp/scrutinizer_b"
           eq_refl eq_refl).
Defined.

Lemma cleanup_spares_other_directories_witness :
  ~ In "/home/user/project" (removeObjects sample_process)
  /\ lookup "/home/user/project"
       (disk (exit (process_of
                      (local sample_environment "/home/user/project"
                         (mkUserOptions "master" None (Some ["license"]))
                         sample_process))))
     = Some [("LICENSE", "Apache-2.0")].
Proof.
  assert (~ In "/home/user/project" (removeObjects sample_process)) as Hnot
    by (intros []).
  split; [exact Hnot|].
  exact (proj1 (cleanup_spares_other_directories sample_environment
                  "/home/user/project"
                  (mkUserOptions "master" None (Some ["license"]))
                  sample_process "/home/user/project" _ eq_refl Hnot)).
Defined.
